(** * Sudoku engine of [src/main.py]: shallow embedding and verification

    The engine is the part of [main.py] between [is_safe] and
    [generate_puzzle].  A Python board is a list of row objects; every
    [board[r][c] = v] mutates a row object in place, and
    [[row[:] for row in board]] allocates fresh row objects.  The embedding
    keeps that: rows live in a heap indexed by locations, a board is the
    list of the locations of its rows, and every function is a computation
    in a state-and-error monad over the heap and the random generator.

    [random.shuffle] is library code.  It is a parameter of the development:
    a function from a generator state and a list to the shuffled list and
    the next generator state.

    The endpoint [new_game] is embedded on top of the engine; [str.lower]
    is a parameter too, and the [HTTPException] that the endpoint raises is
    one of the two answers of its result type. *)

From stdpp Require Import gmap list list_numbers strings.
From Stdlib Require Import ZArith.

Open Scope Z_scope.

(** ** Results and the monad *)

(** [IndexError] is Python's exception for a list index out of range.
    [BadRef] (a location that is not allocated) and [OutOfFuel] (the bound
    on the recursion depth of [solve_board] is used up) belong to the model
    only. *)
Inductive error := IndexError | BadRef | OutOfFuel.

Inductive result (A : Type) : Type :=
  | Ok (a : A)
  | Err (e : error).
Arguments Ok {A} a.
Arguments Err {A} e.

Definition M (S A : Type) : Type := S → result (A * S).

Definition ret {S A} (a : A) : M S A := λ st, Ok (a, st).

Definition bind {S A B} (c : M S A) (k : A → M S B) : M S B :=
  λ st, match c st with
        | Ok (a, st') => k a st'
        | Err e => Err e
        end.

Definition raise {S A} (e : error) : M S A := λ _, Err e.

Declare Scope py_scope.
Delimit Scope py_scope with py.
Notation "x <- c ;; k" := (bind c (λ x, k))
  (at level 20, c at level 99, k at level 200, only parsing) : py_scope.
Notation "' p <- c ;; k" := (bind c (λ x, match x with p => k end))
  (at level 20, p pattern, c at level 99, k at level 200, only parsing)
  : py_scope.
Notation "c ;; k" := (bind c (λ _, k))
  (at level 100, k at level 200, only parsing, right associativity)
  : py_scope.
Open Scope py_scope.

(** ** Loops

    [for_return l body] is a [for] loop whose body may [return]: the body
    answers [Some v] to return [v] from the enclosing function and [None] to
    go on with the next element; the loop answers [None] when it ran to its
    end. *)
Fixpoint for_return {S A R} (l : list A) (body : A → M S (option R))
    : M S (option R) :=
  match l with
  | [] => ret None
  | a :: l' =>
      o <- body a ;;
      match o with
      | Some v => ret (Some v)
      | None => for_return l' body
      end
  end.

(** [for_break l body t] is a [for] loop that carries the local variable
    [t] and may [break]: the body answers [None] to break and [Some t'] to go
    on with [t'].  The loop answers the last value of the variable. *)
Fixpoint for_break {S A T} (l : list A) (body : A → T → M S (option T)) (t : T)
    : M S T :=
  match l with
  | [] => ret t
  | a :: l' =>
      o <- body a t ;;
      match o with
      | None => ret t
      | Some t' => for_break l' body t'
      end
  end.

(** A [for] loop that carries a local variable and runs to its end. *)
Fixpoint for_fold {S A T} (l : list A) (body : A → T → M S T) (t : T) : M S T :=
  match l with
  | [] => ret t
  | a :: l' => t' <- body a t ;; for_fold l' body t'
  end.

(** A [for] loop with no local variable. *)
Fixpoint for_each {S A} (l : list A) (body : A → M S unit) : M S unit :=
  match l with
  | [] => ret tt
  | a :: l' => body a ;; for_each l' body
  end.

(** A list comprehension [[f(a) for a in l]]. *)
Fixpoint list_comp {S A B} (l : list A) (f : A → M S B) : M S (list B) :=
  match l with
  | [] => ret []
  | a :: l' => b <- f a ;; bs <- list_comp l' f ;; ret (b :: bs)
  end.

(** ** Boards in the heap *)

(** The identity of a row object. *)
Abbreviation loc := nat.

(** The heap of row objects. *)
Abbreviation Heap := (gmap nat (list Z)).

(** [Board = List[List[int]]]: the outer list holds references to the row
    objects.  No function of the engine assigns to the outer list, so it is
    an immutable value here. *)
Abbreviation Board := (list nat).

(** ** Grids as values, for the specifications *)

Abbreviation Grid := (list (list Z)).

(** [cell g r c] is the content of cell (r, c); it is 0 outside the grid. *)
Definition cell (g : Grid) (r c : nat) : Z :=
  default 0 (row ← g !! r; row !! c).

(** [upd g r c v] is [g] after [g[r][c] = v]. *)
Definition upd (g : Grid) (r c : nat) (v : Z) : Grid :=
  alter (λ row, <[c:=v]> row) r g.

(** A 9x9 grid. *)
Definition grid9 (g : Grid) : Prop :=
  length g = 9%nat ∧ Forall (λ row, length row = 9%nat) g.

Definition grid9b (g : Grid) : bool :=
  (length g =? 9)%nat && forallb (λ row, (length row =? 9)%nat) g.

(** The grid that the board [b] holds in the heap [h]. *)
Definition view (h : Heap) (b : Board) : option Grid :=
  mapM (λ l, h !! l) b.

(** The coordinates of the grid, row by row. *)
Definition all_cells : list (nat * nat) :=
  r ← seq 0 9; c ← seq 0 9; [(r, c)].

(** The 27 cells that [is_safe] looks at for (r, c): the row, the column
    and the 3x3 subgrid. *)
Definition row_cells (r : nat) : list (nat * nat) := (λ i, (r, i)) <$> seq 0 9.
Definition col_cells (c : nat) : list (nat * nat) := (λ i, (i, c)) <$> seq 0 9.
Definition box_cells (r c : nat) : list (nat * nat) :=
  i ← seq (r - r mod 3) 3; j ← seq (c - c mod 3) 3; [(i, j)].
Definition peers (r c : nat) : list (nat * nat) :=
  row_cells r ++ col_cells c ++ box_cells r c.

(** The digit [n] appears in the row [r] / the column [c] / the subgrid of
    (r, c). *)
Definition in_row (g : Grid) (r : nat) (n : Z) : Prop :=
  ∃ i, (i < 9)%nat ∧ cell g r i = n.
Definition in_col (g : Grid) (c : nat) (n : Z) : Prop :=
  ∃ i, (i < 9)%nat ∧ cell g i c = n.
Definition in_box (g : Grid) (r c : nat) (n : Z) : Prop :=
  ∃ i j, (r - r mod 3 ≤ i < r - r mod 3 + 3)%nat ∧
         (c - c mod 3 ≤ j < c - c mod 3 + 3)%nat ∧ cell g i j = n.

(** [safe g r c n]: the value [is_safe] computes on a 9x9 grid. *)
Definition safe (g : Grid) (r c : nat) (n : Z) : bool :=
  forallb (λ p, negb (cell g p.1 p.2 =? n)) (peers r c).

(** The first empty cell in row-major order. *)
Definition first_empty (g : Grid) : option (nat * nat) :=
  find (λ p, cell g p.1 p.2 =? 0) all_cells.

(** The number of empty cells. *)
Definition empties (g : Grid) : nat :=
  length (filter (λ p, cell g p.1 p.2 = 0) all_cells).

(** The number of non-zero cells. *)
Definition clues (g : Grid) : nat :=
  length (filter (λ p, cell g p.1 p.2 ≠ 0) all_cells).

(** No empty cell. *)
Definition full (g : Grid) : Prop :=
  ∀ r c, (r < 9)%nat → (c < 9)%nat → cell g r c ≠ 0.

Definition fullb (g : Grid) : bool :=
  forallb (λ p, negb (cell g p.1 p.2 =? 0)) all_cells.

(** Two distinct cells that share a row, a column or a subgrid. *)
Definition same_unit (p q : nat * nat) : Prop :=
  p.1 = q.1 ∨ p.2 = q.2 ∨
  (p.1 / 3 = q.1 / 3 ∧ p.2 / 3 = q.2 / 3)%nat.

Definition same_unitb (p q : nat * nat) : bool :=
  (p.1 =? q.1)%nat || (p.2 =? q.2)%nat ||
  ((p.1 / 3 =? q.1 / 3)%nat && (p.2 / 3 =? q.2 / 3)%nat).

(** Row/column/subgrid uniqueness of the non-zero cells: no two distinct
    cells of one row, column or subgrid hold the same non-zero digit. *)
Definition consistent (g : Grid) : Prop :=
  ∀ r c r' c', (r < 9)%nat → (c < 9)%nat → (r' < 9)%nat → (c' < 9)%nat →
    cell g r c ≠ 0 → cell g r c = cell g r' c' →
    same_unit (r, c) (r', c') → (r, c) = (r', c').

Definition consistentb (g : Grid) : bool :=
  forallb (λ p,
    forallb (λ q,
      (cell g p.1 p.2 =? 0) || negb (cell g p.1 p.2 =? cell g q.1 q.2)
      || negb (same_unitb p q)
      || ((p.1 =? q.1)%nat && (p.2 =? q.2)%nat)) all_cells) all_cells.

(** The cells of row [r], of column [c] and of the subgrid number [k]
    (k = 3 * band + stack). *)
Definition row_of (g : Grid) (r : nat) : list Z :=
  (λ c, cell g r c) <$> seq 0 9.
Definition col_of (g : Grid) (c : nat) : list Z :=
  (λ r, cell g r c) <$> seq 0 9.
Definition box_of (g : Grid) (k : nat) : list Z :=
  (λ p : nat * nat, cell g p.1 p.2) <$> box_cells (3 * (k / 3)) (3 * (k mod 3)).

(** A list of cells that contains each digit 1-9 exactly once. *)
Definition each_digit_once (l : list Z) : Prop :=
  ∀ d, 1 ≤ d ≤ 9 → length (filter (λ x, x = d) l) = 1%nat.

Definition each_digit_onceb (l : list Z) : bool :=
  forallb (λ d, (length (filter (λ x, x = d) l) =? 1)%nat) (seqZ 1 9).

(** A solved grid: every row, column and subgrid contains each digit 1-9
    exactly once. *)
Definition solved (g : Grid) : Prop :=
  ∀ k, (k < 9)%nat →
    each_digit_once (row_of g k) ∧ each_digit_once (col_of g k) ∧
    each_digit_once (box_of g k).

Definition solvedb (g : Grid) : bool :=
  forallb (λ k, each_digit_onceb (row_of g k) && each_digit_onceb (col_of g k)
                && each_digit_onceb (box_of g k)) (seq 0 9).

(** [g] is [s] with a subset of its cells set to 0. *)
Definition cleared_from (s g : Grid) : Prop :=
  ∀ r c, (r < 9)%nat → (c < 9)%nat → cell g r c = 0 ∨ cell g r c = cell s r c.

Definition cleared_fromb (s g : Grid) : bool :=
  forallb (λ p, (cell g p.1 p.2 =? 0) || (cell g p.1 p.2 =? cell s p.1 p.2))
          all_cells.

(** [solvable n g]: the search of [solve_board] succeeds on [g], whatever
    the order of the candidates; [n] bounds the depth. *)
Fixpoint solvable (n : nat) (g : Grid) : bool :=
  match n with
  | O => false
  | S n' =>
      match first_empty g with
      | None => true
      | Some (r, c) =>
          existsb (λ d, safe g r c d && solvable n' (upd g r c d)) (seqZ 1 9)
      end
  end.

(** The first answer [Some v] of [f] along [l]: what a [for] loop with a
    [return] computes when its body does not change the state. *)
Fixpoint first_some {A R} (f : A → option R) (l : list A) : option R :=
  match l with
  | [] => None
  | a :: l' => match f a with Some v => Some v | None => first_some f l' end
  end.

(** All the cells hold a digit 1-9 or are empty. *)
Definition digits (g : Grid) : Prop :=
  ∀ r c, (r < 9)%nat → (c < 9)%nat → 0 ≤ cell g r c ≤ 9.

(** ** The seeding of [generate_full_board], as a function on grids *)

(** The inner loop over the columns [cs] of row [r]: the grid and the
    counter [idx] after it. *)
Definition fill_row (nums : list Z) (r : nat) (cs : list nat)
    (gi : list (list Z) * nat) : list (list Z) * nat :=
  foldl (λ gi c, (upd gi.1 r c (nums !!! gi.2), S gi.2)) gi cs.

(** The two nested loops over the rows [rs] and the columns [cs]. *)
Definition fill_block (nums : list Z) (rs cs : list nat)
    (gi : list (list Z) * nat) : list (list Z) * nat :=
  foldl (λ gi r, fill_row nums r cs gi) gi rs.

(** The grid after the diagonal subgrid at (k, k) is filled from [nums]. *)
Definition seed_block (k : nat) (nums : list Z) (g : Grid) : Grid :=
  (fill_block nums (seq k 3) (seq k 3) (g, 0%nat)).1.

Definition zero_grid : Grid := replicate 9 (replicate 9 0).

(** The grid that [generate_full_board] hands to [solve_board] when the
    three shuffles are [n1], [n2] and [n3]. *)
Definition seed_grid (n1 n2 n3 : list Z) : Grid :=
  seed_block 6 n3 (seed_block 3 n2 (seed_block 0 n1 zero_grid)).

(** The cell (r, c) of the seeded grid: the diagonal subgrids hold the
    three shuffles row by row, the other cells are empty. *)
Definition seed_cell (n1 n2 n3 : list Z) (r c : nat) : Z :=
  if (r / 3 =? c / 3)%nat
  then default 0 (default [] ([n1; n2; n3] !! (r / 3)%nat)
                  !! (3 * (r mod 3) + c mod 3)%nat)
  else 0.

(** Every seeding of the three diagonal subgrids with arrangements of 1-9
    is part of some solved grid. *)
Definition seeds_completable : Prop :=
  ∀ n1 n2 n3, n1 ≡ₚ seqZ 1 9 → n2 ≡ₚ seqZ 1 9 → n3 ≡ₚ seqZ 1 9 →
    ∃ s, solved s ∧ cleared_from s (seed_grid n1 n2 n3).

(** ** The engine *)

Section Engine.

Variable RNG : Type.

(** [random.shuffle]: the shuffled list and the next generator state. *)
Variable shuffle : ∀ A : Type, list A → RNG → list A * RNG.

(** The state: the heap of row objects and the generator.  [hist] is
    ghost state: the heap after every item assignment, the latest first.
    Nothing reads it. *)
Record state : Type := State {
  heap : Heap;
  rng : RNG;
  hist : list Heap;
}.

Definition Py (A : Type) : Type := M state A.

(** [l[i]] on an immutable list value. *)
Definition index {A} (l : list A) (i : nat) : Py A :=
  match l !! i with
  | Some a => ret a
  | None => raise IndexError
  end.

(** Reading a row object. *)
Definition load (l : loc) : Py (list Z) :=
  λ st, match heap st !! l with
        | Some row => Ok (row, st)
        | None => Err BadRef
        end.

(** Overwriting a row object in place. *)
Definition store (l : loc) (row : list Z) : Py unit :=
  λ st, let h := <[l:=row]> (heap st) in
        Ok (tt, {| heap := h; rng := rng st; hist := h :: hist st |}).

(** Allocating a new row object. *)
Definition alloc (row : list Z) : Py loc :=
  λ st, let l := fresh (dom (heap st)) in
        Ok (l, {| heap := <[l:=row]> (heap st); rng := rng st;
                  hist := hist st |}).

(** [random.shuffle(l)] on a list that nothing else refers to. *)
Definition shuffled {A} (l : list A) : Py (list A) :=
  λ st, let '(l', g) := shuffle A l (rng st) in
        Ok (l', {| heap := heap st; rng := g; hist := hist st |}).

(** [board[r][c]] *)
Definition get_item (board : Board) (r c : nat) : Py Z :=
  l <- index board r ;;
  row <- load l ;;
  index row c.

(** [board[r][c] = v] *)
Definition set_item (board : Board) (r c : nat) (v : Z) : Py unit :=
  l <- index board r ;;
  row <- load l ;;
  if decide (c < length row)%nat then store l (<[c:=v]> row)
  else raise IndexError.

(** [is_safe], lines 38-50. *)
Definition is_safe (board : Board) (row col : nat) (num : Z) : Py bool :=
  o <- for_return (seq 0 9) (λ i,
         x <- get_item board row i ;;
         if x =? num then ret (Some false)
         else
           y <- get_item board i col ;;
           if y =? num then ret (Some false) else ret None) ;;
  match o with
  | Some v => ret v
  | None =>
      let start_row := (row - row mod 3)%nat in
      let start_col := (col - col mod 3)%nat in
      o <- for_return (seq start_row 3) (λ r,
             for_return (seq start_col 3) (λ c,
               x <- get_item board r c ;;
               if x =? num then ret (Some false) else ret None)) ;;
      match o with
      | Some v => ret v
      | None => ret true
      end
  end.

(** [find_empty], lines 53-58. *)
Definition find_empty (board : Board) : Py (option (nat * nat)) :=
  for_return (seq 0 9) (λ r,
    for_return (seq 0 9) (λ c,
      x <- get_item board r c ;;
      if x =? 0 then ret (Some (r, c)) else ret None)).

(** [solve_board], lines 61-74.  [fuel] bounds the depth of the
    recursion. *)
Fixpoint solve_board (fuel : nat) (board : Board) : Py bool :=
  match fuel with
  | O => raise OutOfFuel
  | S fuel' =>
      empty <- find_empty board ;;
      match empty with
      | None => ret true
      | Some (r, c) =>
          nums <- shuffled (seqZ 1 9) ;;
          o <- for_return nums (λ n,
                 ok <- is_safe board r c n ;;
                 if ok then
                   set_item board r c n ;;
                   done <- solve_board fuel' board ;;
                   if done then ret (Some true)
                   else set_item board r c 0 ;; ret None
                 else ret None) ;;
          match o with
          | Some v => ret v
          | None => ret false
          end
      end
  end.

(** [generate_full_board], lines 77-89. *)
Definition generate_full_board (fuel : nat) : Py Board :=
  board <- list_comp (seq 0 9) (λ _, alloc (replicate 9 0)) ;;
  for_each [0; 3; 6]%nat (λ k,
    nums <- shuffled (seqZ 1 9) ;;
    for_fold (seq k 3) (λ r idx,
      for_fold (seq k 3) (λ c idx,
        v <- index nums idx ;;
        set_item board r c v ;;
        ret (idx + 1)%nat) idx) 0%nat ;;
    ret tt) ;;
  solve_board fuel board ;;
  ret board.

(** [[row[:] for row in board]] *)
Definition copy_board (board : Board) : Py Board :=
  list_comp board (λ l, row <- load l ;; alloc row).

(** The number of cells to clear, lines 95-100. *)
Definition removals_of (difficulty : string) : nat :=
  if String.eqb difficulty "easy" then 35
  else if String.eqb difficulty "medium" then 45
  else 55.

(** [remove_cells], lines 92-115. *)
Definition remove_cells (fuel : nat) (board : Board) (difficulty : string)
    : Py Board :=
  puzzle <- copy_board board ;;
  let removals := removals_of difficulty in
  cells <- shuffled all_cells ;;
  for_break cells (λ '(r, c) removed,
    if (removals <=? removed)%nat then ret None
    else
      backup <- get_item puzzle r c ;;
      set_item puzzle r c 0 ;;
      test <- copy_board puzzle ;;
      ok <- solve_board fuel test ;;
      if negb ok then set_item puzzle r c backup ;; ret (Some removed)
      else ret (Some (removed + 1)%nat)) 0%nat ;;
  ret puzzle.

(** [generate_puzzle], lines 118-121. *)
Definition generate_puzzle (fuel : nat) (difficulty : string)
    : Py (Board * Board) :=
  full <- generate_full_board fuel ;;
  puzzle <- remove_cells fuel full difficulty ;;
  ret (puzzle, full).

(** ** Specification vocabulary *)

(** The board [b] is made of distinct row objects and holds the 9x9
    grid [g] in the state [st]. *)
Definition holds (st : state) (b : Board) (g : Grid) : Prop :=
  NoDup b ∧ view (heap st) b = Some g ∧ grid9 g.

(** The row objects outside [b] are the same in [st] and [st']. *)
Definition same_outside (b : Board) (st st' : state) : Prop :=
  ∀ l, l ∉ b → heap st' !! l = heap st !! l.

(** The row objects of [st] are the same in [st']. *)
Definition preserves (st st' : state) : Prop :=
  ∀ l row, heap st !! l = Some row → heap st' !! l = Some row.

(** The row objects of [st] outside [b] are the same in [st']. *)
Definition preserves_outside (b : Board) (st st' : state) : Prop :=
  ∀ l row, l ∉ b → heap st !! l = Some row → heap st' !! l = Some row.

(** A digit that a shuffle of [1..9] can hold. *)
Definition candidate (d : Z) : Prop :=
  ∃ g0, d ∈ (shuffle Z (seqZ 1 9) g0).1.

(** [g'] is [g] with some empty cells filled with candidates. *)
Definition fills (g g' : Grid) : Prop :=
  ∀ r c, (r < 9)%nat → (c < 9)%nat →
    if decide (cell g r c = 0)
    then cell g' r c = 0 ∨ candidate (cell g' r c)
    else cell g' r c = cell g r c.

(** A heap in which the board [b] holds [g] with some empty cells filled
    with candidates, and without a new violation of uniqueness. *)
Definition intermediate (b : Board) (g : Grid) (h : Heap) : Prop :=
  ∃ gh, view h b = Some gh ∧ grid9 gh ∧ fills g gh
        ∧ (consistent g → consistent gh).

(** [shuffle] answers a permutation of its argument. *)
Definition shuffle_permutes : Prop :=
  ∀ (A : Type) (l : list A) (g0 : RNG), (shuffle A l g0).1 ≡ₚ l.

(** What a call [solve_board(board)] that starts in [st] with the grid
    [g] and answers [res] in [st'] has done: the other row objects are as
    before; every heap it went through, and the last one, holds [g] with
    some empty cells filled; the grid is full when it answers true and is
    [g] again when it answers false. *)
Definition solve_post (fuel : nat) (b : Board) (g : Grid)
    (st : state) (res : bool) (st' : state) : Prop :=
  same_outside b st st'
  ∧ dom (heap st') = dom (heap st)
  ∧ (∃ new, hist st' = new ++ hist st ∧ Forall (intermediate b g) new)
  ∧ ∃ g', holds st' b g' ∧ fills g g' ∧ (consistent g → consistent g')
          ∧ (if res then full g' else g' = g)
          ∧ (shuffle_permutes → res = solvable fuel g).

End Engine.

Arguments State {RNG} heap rng hist.
Arguments heap {RNG} s.
Arguments rng {RNG} s.
Arguments hist {RNG} s.
Arguments holds {RNG} st b g.
Arguments same_outside {RNG} b st st'.
Arguments preserves {RNG} st st'.
Arguments preserves_outside {RNG} b st st'.
Arguments candidate {RNG} shuffle d.
Arguments fills {RNG} shuffle g g'.
Arguments shuffle_permutes {RNG} shuffle.
Arguments intermediate {RNG} shuffle b g h.
Arguments solve_post {RNG} shuffle fuel b g st res st'.
Arguments index {RNG A} l i.
Arguments load {RNG} l.
Arguments store {RNG} l row.
Arguments alloc {RNG} row.
Arguments shuffled {RNG} shuffle {A} l.
Arguments get_item {RNG} board r c.
Arguments set_item {RNG} board r c v.
Arguments is_safe {RNG} board row col num.
Arguments find_empty {RNG} board.
Arguments solve_board {RNG} shuffle fuel board.
Arguments generate_full_board {RNG} shuffle fuel.
Arguments copy_board {RNG} board.
Arguments remove_cells {RNG} shuffle fuel board difficulty.
Arguments generate_puzzle {RNG} shuffle fuel difficulty.

(** ** The endpoint [new_game] *)

(** The request body [NewGameRequest], lines 21-22. *)
Record NewGameRequest : Type := { difficulty : string }.

(** The dictionary that [new_game] returns, line 135. *)
Record GameResponse : Type := { puzzle : Board; solution : Board }.

(** What an endpoint answers: the value it returns or the [HTTPException]
    it raises. *)
Inductive http_result (A : Type) : Type :=
  | Returns (a : A)
  | HTTPException (status_code : nat) (detail : string).

Arguments Returns {A} a.
Arguments HTTPException {A} status_code detail.

Section Api.

Context {RNG : Type}.
Variable shuffle : ∀ A : Type, list A → RNG → list A * RNG.

(** [str.lower] *)
Variable lower : string → string.

(** [new_game], lines 129-135. *)
Definition new_game (fuel : nat) (payload : NewGameRequest)
    : M (state RNG) (http_result GameResponse) :=
  let diff := lower (difficulty payload) in
  if negb (existsb (String.eqb diff) ["easy"; "medium"; "hard"]%string)
  then ret (HTTPException 400 "Invalid difficulty")
  else
    ps <- generate_puzzle shuffle fuel diff ;;
    ret (Returns {| puzzle := ps.1; solution := ps.2 |}).

End Api.

(** ** A concrete generator, for running the engine

    The generator state is a counter; shuffling rotates the list by the
    counter and increments it. *)
Definition demo_shuffle (A : Type) (l : list A) (g : nat) : list A * nat :=
  (rotate g l, S g).

Definition demo_state (h : Heap) : state nat := State h 0%nat [].

(** A solved grid and a board that holds a grid in consecutive rows. *)
Definition demo_solution : Grid :=
  [ [1; 2; 3; 4; 5; 6; 7; 8; 9]; [4; 5; 6; 7; 8; 9; 1; 2; 3];
    [7; 8; 9; 1; 2; 3; 4; 5; 6]; [2; 3; 1; 5; 6; 4; 8; 9; 7];
    [5; 6; 4; 8; 9; 7; 2; 3; 1]; [8; 9; 7; 2; 3; 1; 5; 6; 4];
    [3; 1; 2; 6; 4; 5; 9; 7; 8]; [6; 4; 5; 9; 7; 8; 3; 1; 2];
    [9; 7; 8; 3; 1; 2; 6; 4; 5] ].

(** [demo_solution] with a few cells cleared. *)
Definition demo_puzzle : Grid :=
  [ [0; 2; 0; 4; 5; 0; 7; 8; 9]; [4; 5; 6; 7; 8; 9; 1; 2; 3];
    [7; 0; 9; 1; 2; 3; 4; 5; 6]; [2; 3; 1; 5; 6; 4; 8; 9; 7];
    [5; 6; 4; 0; 9; 7; 2; 3; 1]; [8; 9; 7; 2; 3; 1; 5; 6; 4];
    [3; 1; 2; 6; 4; 5; 9; 7; 0]; [6; 4; 5; 9; 7; 8; 3; 1; 2];
    [9; 7; 8; 3; 1; 2; 6; 4; 0] ].

(** A grid with two equal digits in its first row.  No solved grid
    completes it; the search fills it all the same, since [is_safe] only
    looks for the digit it is about to place. *)
Definition demo_contradictory : Grid :=
  [ [1; 1; 0; 0; 0; 0; 0; 0; 0]; [4; 5; 6; 7; 8; 9; 1; 2; 3];
    [7; 8; 9; 1; 2; 3; 4; 5; 6]; [2; 3; 1; 5; 6; 4; 8; 9; 7];
    [5; 6; 4; 8; 9; 7; 2; 3; 1]; [8; 9; 7; 2; 3; 1; 5; 6; 4];
    [3; 1; 2; 6; 4; 5; 9; 7; 8]; [6; 4; 5; 9; 7; 8; 3; 1; 2];
    [9; 7; 8; 3; 1; 2; 6; 4; 5] ].

(** A grid that satisfies uniqueness and has no completion: the first two
    cells of the first row need 1 and 2, and the second column has both.
    The search places 1 and then 2 in the first cell, fails on the second
    cell both times, and undoes both placements. *)
Definition demo_stuck : Grid :=
  [ [0; 0; 3; 4; 5; 6; 7; 8; 9]; [0; 0; 0; 0; 0; 0; 0; 0; 0];
    [0; 0; 0; 0; 0; 0; 0; 0; 0]; [0; 1; 0; 0; 0; 0; 0; 0; 0];
    [0; 2; 0; 0; 0; 0; 0; 0; 0]; [0; 0; 0; 0; 0; 0; 0; 0; 0];
    [0; 0; 0; 0; 0; 0; 0; 0; 0]; [0; 0; 0; 0; 0; 0; 0; 0; 0];
    [0; 0; 0; 0; 0; 0; 0; 0; 0] ].

(** A full grid that violates uniqueness everywhere. *)
Definition demo_fives : Grid := replicate 9 (replicate 9 5).

Definition demo_board : Board := seq 0 9.

(** Lower case on the letters A-Z, as [str.lower] on ASCII strings. *)
Definition demo_lower_char (c : Ascii.ascii) : Ascii.ascii :=
  let n := Ascii.nat_of_ascii c in
  if ((65 <=? n) && (n <=? 90))%nat then Ascii.ascii_of_nat (n + 32) else c.

Fixpoint demo_lower (s : string) : string :=
  match s with
  | EmptyString => EmptyString
  | String c s' => String (demo_lower_char c) (demo_lower s')
  end.

Definition heap_of (g : Grid) : Heap :=
  list_to_map (zip (seq 0 (length g)) g).

(** * Proofs *)

#[local] Arguments safe : simpl never.
#[local] Arguments upd : simpl never.
#[local] Arguments cell : simpl never.

(** ** Stepping through the monad *)

Lemma bind_ok {S A B} (c : M S A) (k : A → M S B) st a st1 :
  c st = Ok (a, st1) → bind c k st = k a st1.
Proof. intros H. unfold bind. by rewrite H. Qed.

Lemma bind_err {S A B} (c : M S A) (k : A → M S B) st e :
  c st = Err e → bind c k st = Err e.
Proof. intros H. unfold bind. by rewrite H. Qed.

Lemma bind_inv {S A B} (c : M S A) (k : A → M S B) st b st2 :
  bind c k st = Ok (b, st2) →
  ∃ a st1, c st = Ok (a, st1) ∧ k a st1 = Ok (b, st2).
Proof.
  unfold bind. destruct (c st) as [[a st1]|e]; [|done]. eauto.
Qed.

Lemma bind_assoc {S A B C} (c : M S A) (k : A → M S B) (k' : B → M S C) st :
  bind (bind c k) k' st = bind c (λ a, bind (k a) k') st.
Proof. unfold bind. by destruct (c st) as [[a st1]|e]. Qed.

(** [step H] runs the first action of the computation of the goal with
    the equation [H : c st = Ok (a, st')]. *)
Ltac step H :=
  rewrite ?bind_assoc; rewrite (bind_ok _ _ _ _ _ H); cbn beta iota.

(** ** Loops whose body leaves the state alone *)

Lemma for_return_pure {S A R} (l : list A) (body : A → M S (option R))
    (f : A → option R) st :
  (∀ a, a ∈ l → body a st = Ok (f a, st)) →
  for_return l body st = Ok (first_some f l, st).
Proof.
  induction l as [|a l IH]; intros Hb; [done|].
  cbn [for_return first_some].
  rewrite (bind_ok _ _ _ _ _ (Hb a ltac:(left))).
  destruct (f a); [done|]. apply IH. intros b Hin. apply Hb. by right.
Qed.

Lemma first_some_app {A R} (f : A → option R) (l k : list A) :
  first_some f (l ++ k)
  = match first_some f l with Some v => Some v | None => first_some f k end.
Proof. induction l as [|a l IH]; [done|]. cbn. by destruct (f a). Qed.

Lemma first_some_bind {A B R} (f : A → B → option R) (l : list A) (k : list B) :
  first_some (λ a, first_some (f a) k) l
  = first_some (λ p, f p.1 p.2) (a ← l; b ← k; [(a, b)]).
Proof.
  induction l as [|a l IH]; [done|].
  rewrite bind_cons, first_some_app, <- IH. cbn [first_some].
  assert (first_some (f a) k
          = first_some (λ p : A * B, f p.1 p.2) (b ← k; [(a, b)])) as ->; [|done].
  clear. induction k as [|b k IHk]; [done|].
  rewrite bind_cons. cbn. by rewrite IHk.
Qed.

Lemma first_some_find {A} (P : A → bool) (f : A → option A) (l : list A) :
  (∀ a, f a = if P a then Some a else None) →
  first_some f l = find P l.
Proof.
  intros Hf. induction l as [|a l IH]; [done|]. cbn. rewrite Hf.
  by destruct (P a).
Qed.

Lemma first_some_None {A R} (f : A → option R) (l : list A) :
  first_some f l = None ↔ ∀ a, a ∈ l → f a = None.
Proof.
  induction l as [|a l IH]; cbn.
  - split; [|done]. intros _ a Ha. by apply elem_of_nil in Ha.
  - destruct (f a) eqn:E.
    + split; [done|]. intros H. specialize (H a ltac:(left)). congruence.
    + rewrite IH. split.
      * intros H b Hb. apply elem_of_cons in Hb as [->|Hb]; auto.
      * intros H b Hb. apply H. by right.
Qed.

(** ** Grids *)

Lemma cell_lookup (g : Grid) r c row v :
  g !! r = Some row → row !! c = Some v → cell g r c = v.
Proof. intros H1 H2. unfold cell. rewrite H1. cbn. by rewrite H2. Qed.

Lemma grid9_lookup (g : Grid) r c :
  grid9 g → (r < 9)%nat → (c < 9)%nat →
  ∃ row, g !! r = Some row ∧ length row = 9%nat ∧ row !! c = Some (cell g r c).
Proof.
  intros [Hl Hr] Hr9 Hc9.
  destruct (lookup_lt_is_Some_2 g r) as [row Hrow]; [lia|].
  assert (length row = 9%nat) as Hlen.
  { rewrite Forall_forall in Hr. apply Hr. by eapply list_elem_of_lookup_2. }
  destruct (lookup_lt_is_Some_2 row c) as [v Hv]; [lia|].
  exists row. repeat split; auto. rewrite Hv. f_equal. symmetry.
  by eapply cell_lookup.
Qed.

Lemma grid9_upd g r c v : grid9 g → grid9 (upd g r c v).
Proof.
  intros [Hl Hr]. split; unfold upd.
  - by rewrite length_alter.
  - apply Forall_alter; [done|]. intros row _ Hrow. by rewrite length_insert.
Qed.

Lemma cell_upd g r c v r' c' :
  grid9 g → (r < 9)%nat → (c < 9)%nat →
  cell (upd g r c v) r' c' = if decide ((r', c') = (r, c)) then v else cell g r' c'.
Proof.
  intros Hg Hr Hc. destruct (grid9_lookup g r c Hg Hr Hc) as (row & Hrow & Hlen & Hv).
  unfold cell, upd. destruct (decide (r' = r)) as [->|Hne].
  - rewrite list_lookup_alter_eq, Hrow. cbn.
    destruct (decide (c' = c)) as [->|Hnc].
    + rewrite list_lookup_insert_eq by lia. cbn. by rewrite decide_True.
    + rewrite list_lookup_insert_ne by done. rewrite decide_False by congruence. done.
  - rewrite list_lookup_alter_ne by done. rewrite decide_False by congruence. done.
Qed.

Lemma cell_upd_eq g r c v :
  grid9 g → (r < 9)%nat → (c < 9)%nat → cell (upd g r c v) r c = v.
Proof. intros. rewrite cell_upd by done. by rewrite decide_True. Qed.

Lemma cell_upd_ne g r c v r' c' :
  grid9 g → (r < 9)%nat → (c < 9)%nat → (r', c') ≠ (r, c) →
  cell (upd g r c v) r' c' = cell g r' c'.
Proof. intros. rewrite cell_upd by done. by rewrite decide_False. Qed.

(** Two 9x9 grids with the same cells are equal. *)
Lemma grid9_ext g g' :
  grid9 g → grid9 g' →
  (∀ r c, (r < 9)%nat → (c < 9)%nat → cell g r c = cell g' r c) → g = g'.
Proof.
  intros Hg Hg' Hc. apply list_eq. intros r.
  destruct (decide (r < 9)%nat) as [Hr|Hr].
  - destruct (grid9_lookup g r 0 Hg Hr ltac:(lia)) as (row & Hrow & Hlen & _).
    destruct (grid9_lookup g' r 0 Hg' Hr ltac:(lia)) as (row' & Hrow' & Hlen' & _).
    rewrite Hrow, Hrow'. f_equal. apply list_eq. intros c.
    destruct (decide (c < 9)%nat) as [Hc9|Hc9].
    + destruct (grid9_lookup g r c Hg Hr Hc9) as (row1 & Hrow1 & _ & Hv).
      destruct (grid9_lookup g' r c Hg' Hr Hc9) as (row1' & Hrow1' & _ & Hv').
      simplify_eq. rewrite Hv, Hv'. f_equal. by apply Hc.
    + rewrite !lookup_ge_None_2 by lia. done.
  - destruct Hg as [Hl _], Hg' as [Hl' _]. rewrite !lookup_ge_None_2 by lia. done.
Qed.

Lemma upd_upd g r c v w :
  grid9 g → (r < 9)%nat → (c < 9)%nat → upd (upd g r c v) r c w = upd g r c w.
Proof.
  intros Hg Hr Hc. apply grid9_ext; auto using grid9_upd.
  intros r' c' Hr' Hc'. rewrite !cell_upd by auto using grid9_upd.
  by case_decide.
Qed.

Lemma upd_same g r c :
  grid9 g → (r < 9)%nat → (c < 9)%nat → upd g r c (cell g r c) = g.
Proof.
  intros Hg Hr Hc. apply grid9_ext; auto using grid9_upd.
  intros r' c' Hr' Hc'. rewrite !cell_upd by auto using grid9_upd.
  case_decide; [|done]. by simplify_eq.
Qed.

Lemma first_some_Some {A R} (f : A → option R) (l : list A) v :
  first_some f l = Some v → ∃ a, a ∈ l ∧ f a = Some v.
Proof.
  induction l as [|a l IH]; [done|]. cbn. destruct (f a) eqn:E.
  - intros [= ->]. exists a. split; [left|done].
  - intros H. destruct (IH H) as (b & Hb & Hfb). exists b. split; [by right|done].
Qed.

Lemma upd_insert (g : list (list Z)) r c v row :
  g !! r = Some row → upd g r c v = <[r:=<[c:=v]> row]> g.
Proof.
  intros Hrow. unfold upd. apply list_eq. intros i.
  destruct (decide (i = r)) as [->|Hne].
  - rewrite list_lookup_alter_eq, Hrow. cbn.
    rewrite list_lookup_insert_eq; [done|]. by eapply lookup_lt_Some.
  - rewrite list_lookup_alter_ne by done. by rewrite list_lookup_insert_ne.
Qed.

Lemma elem_of_rect (r0 n c0 m : nat) (p : nat * nat) :
  p ∈ (i ← seq r0 n; j ← seq c0 m; [(i, j)])
  ↔ (r0 ≤ p.1 < r0 + n)%nat ∧ (c0 ≤ p.2 < c0 + m)%nat.
Proof.
  rewrite list_elem_of_bind. split.
  - intros (i & Hp & Hi). apply list_elem_of_bind in Hp as (j & Hp & Hj).
    apply list_elem_of_singleton in Hp as ->. cbn.
    apply elem_of_seq in Hi, Hj. lia.
  - intros [H1 H2]. exists p.1. split; [|apply elem_of_seq; lia].
    apply list_elem_of_bind. exists p.2. split; [|apply elem_of_seq; lia].
    destruct p. by apply list_elem_of_singleton.
Qed.

Lemma elem_of_all_cells (p : nat * nat) :
  p ∈ all_cells ↔ (p.1 < 9)%nat ∧ (p.2 < 9)%nat.
Proof. unfold all_cells. rewrite elem_of_rect. lia. Qed.

(** ** Boards in the heap *)

Lemma view_Forall2 (h : gmap nat (list Z)) (b : list nat) (g : list (list Z)) :
  view h b = Some g ↔ Forall2 (λ l row, h !! l = Some row) b g.
Proof. apply mapM_Some. Qed.

Lemma view_insert (h : gmap nat (list Z)) b g r l row :
  NoDup b → view h b = Some g → b !! r = Some l →
  view (<[l:=row]> h) b = Some (<[r:=row]> g).
Proof.
  rewrite !view_Forall2. intros Hnd HF Hl.
  apply Forall2_same_length_lookup. split.
  - rewrite length_insert. by eapply Forall2_length.
  - intros i l' row' Hi Hr'. destruct (decide (i = r)) as [->|Hne].
    + simplify_eq. rewrite list_lookup_insert_eq in Hr'.
      * simplify_eq. by rewrite lookup_insert_eq.
      * erewrite <- Forall2_length by done. by eapply lookup_lt_Some.
    + rewrite list_lookup_insert_ne in Hr' by done.
      rewrite lookup_insert_ne.
      * exact (Forall2_lookup_lr _ _ _ _ _ _ HF Hi Hr').
      * intros ->. apply Hne. eapply NoDup_lookup; eauto.
Qed.

Lemma view_agree (h h' : gmap nat (list Z)) b :
  (∀ l, l ∈ b → h' !! l = h !! l) → view h' b = view h b.
Proof.
  intros H. unfold view. induction b as [|l b IH]; [done|].
  cbn. rewrite (H l) by left. destruct (h !! l); [|done]. cbn.
  rewrite IH; [done|]. intros l' Hl'. apply H. by right.
Qed.

Section HeapOps.
Context {RNG : Type}.
Implicit Types (st : state RNG) (b : list nat) (g : list (list Z)).

Lemma holds_lookup st b g r :
  holds st b g → (r < 9)%nat →
  ∃ l row, b !! r = Some l ∧ heap st !! l = Some row ∧ g !! r = Some row
           ∧ length row = 9%nat.
Proof.
  intros (Hnd & Hv & Hg) Hr. apply view_Forall2 in Hv.
  destruct (grid9_lookup g r 0 Hg Hr ltac:(lia)) as (row & Hrow & Hlen & _).
  destruct (Forall2_lookup_r _ _ _ _ _ Hv Hrow) as (l & Hl & Hh).
  by exists l, row.
Qed.

Lemma get_item_ok st b g r c :
  holds st b g → (r < 9)%nat → (c < 9)%nat →
  get_item b r c st = Ok (cell g r c, st).
Proof.
  intros H Hr Hc. destruct (holds_lookup st b g r H Hr) as (l & row & Hl & Hh & Hrow & Hlen).
  destruct H as (_ & _ & Hg).
  destruct (grid9_lookup g r c Hg Hr Hc) as (row' & Hrow' & _ & Hv). simplify_eq.
  unfold get_item, index, bind, load, ret. rewrite Hl, Hh, Hv. done.
Qed.

Lemma set_item_ok st b g r c v :
  holds st b g → (r < 9)%nat → (c < 9)%nat →
  ∃ h', set_item b r c v st
        = Ok (tt, {| heap := h'; rng := rng st; hist := h' :: hist st |})
      ∧ view h' b = Some (upd g r c v)
      ∧ (∀ l, l ∉ b → h' !! l = heap st !! l)
      ∧ dom h' = dom (heap st).
Proof.
  intros H Hr Hc. destruct (holds_lookup st b g r H Hr) as (l & row & Hl & Hh & Hrow & Hlen).
  destruct H as (Hnd & Hv & Hg).
  exists (<[l:=<[c:=v]> row]> (heap st)). split; [|split; [|split]].
  - unfold set_item, index. rewrite Hl. unfold bind, ret, load. cbn.
    rewrite Hh. cbn. rewrite decide_True by lia. done.
  - rewrite (upd_insert g r c v row Hrow). by apply view_insert.
  - intros l' Hl'. rewrite lookup_insert_ne; [done|]. intros ->.
    apply Hl'. by eapply list_elem_of_lookup_2.
  - apply dom_insert_lookup_L. by eexists.
Qed.

(** ** [is_safe] and [find_empty] *)

Lemma safe_true g r c n :
  safe g r c n = true ↔ ∀ p, p ∈ peers r c → cell g p.1 p.2 ≠ n.
Proof.
  unfold safe. rewrite forallb_forall. split.
  - intros H p Hp. apply list_elem_of_In in Hp. specialize (H p Hp).
    apply negb_true_iff, Z.eqb_neq in H. done.
  - intros H p Hp. apply list_elem_of_In in Hp. apply negb_true_iff, Z.eqb_neq. auto.
Qed.

Lemma elem_of_peers r c p :
  p ∈ peers r c ↔
    (p.1 = r ∧ (p.2 < 9)%nat) ∨ (p.2 = c ∧ (p.1 < 9)%nat) ∨
    ((r - r mod 3 ≤ p.1 < r - r mod 3 + 3)%nat ∧
     (c - c mod 3 ≤ p.2 < c - c mod 3 + 3)%nat).
Proof.
  unfold peers, row_cells, col_cells, box_cells.
  rewrite !elem_of_app, !list_elem_of_fmap, elem_of_rect.
  destruct p as [i j]. cbn [fst snd]. split.
  - intros [(k & [= -> ->] & Hk)|[(k & [= -> ->] & Hk)|Hk]].
    + apply elem_of_seq in Hk. left. lia.
    + apply elem_of_seq in Hk. right; left. lia.
    + by right; right.
  - intros [[-> H]|[[-> H]|H]].
    + left. exists j. split; [done|]. apply elem_of_seq. lia.
    + right; left. exists i. split; [done|]. apply elem_of_seq. lia.
    + by right; right.
Qed.

Lemma is_safe_ok st b g r c n :
  holds st b g → (r < 9)%nat → (c < 9)%nat →
  is_safe b r c n st = Ok (safe g r c n, st).
Proof.
  intros H Hr Hc. unfold is_safe.
  set (f1 := λ i : nat,
         if cell g r i =? n then Some false
         else if cell g i c =? n then Some false else @None bool).
  set (f2 := λ p : nat * nat, if cell g p.1 p.2 =? n then Some false else @None bool).
  erewrite bind_ok; last first.
  { apply (for_return_pure _ _ f1). intros i Hi. apply elem_of_seq in Hi.
    erewrite bind_ok by (apply (get_item_ok st b g); [done|lia|lia]).
    unfold f1. destruct (cell g r i =? n); [done|].
    erewrite bind_ok by (apply (get_item_ok st b g); [done|lia|lia]).
    by destruct (cell g i c =? n). }
  assert (r mod 3 < 3)%nat by (apply Nat.mod_upper_bound; lia).
  assert (c mod 3 < 3)%nat by (apply Nat.mod_upper_bound; lia).
  assert (r mod 3 ≤ r)%nat by (apply Nat.Div0.mod_le).
  assert (c mod 3 ≤ c)%nat by (apply Nat.Div0.mod_le).
  assert (r - r mod 3 + 3 ≤ 9)%nat.
  { pose proof (Nat.div_mod_eq r 3). assert (r / 3 < 3)%nat by (apply Nat.Div0.div_lt_upper_bound; lia). lia. }
  assert (c - c mod 3 + 3 ≤ 9)%nat.
  { pose proof (Nat.div_mod_eq c 3). assert (c / 3 < 3)%nat by (apply Nat.Div0.div_lt_upper_bound; lia). lia. }
  assert (∀ o : option bool,
    (match o with
     | Some v => ret v
     | None =>
         o0 <- for_return (seq (r - r mod 3) 3) (λ r0,
                 for_return (seq (c - c mod 3) 3) (λ c0,
                   x <- get_item b r0 c0 ;;
                   if x =? n then ret (Some false) else ret None)) ;;
         match o0 with Some v => ret v | None => ret true end
     end) st
    = Ok (match o with
          | Some v => v
          | None => match first_some f2 (box_cells r c) with
                    | Some v => v | None => true end
          end, st)) as Hsnd.
  { intros [v|]; [done|].
    erewrite bind_ok; last first.
    { apply (for_return_pure _ _ (λ r0, first_some (λ c0, f2 (r0, c0)) (seq (c - c mod 3) 3))).
      intros i Hi. apply elem_of_seq in Hi.
      apply for_return_pure. intros j Hj. apply elem_of_seq in Hj.
      erewrite bind_ok by (apply (get_item_ok st b g); [done|lia|lia]).
      unfold f2. cbn. by destruct (cell g i j =? n). }
    rewrite (first_some_bind (λ r0 c0, f2 (r0, c0))).
    unfold box_cells.
    by destruct (first_some _ _). }
  rewrite Hsnd. f_equal. f_equal.
  apply eq_true_iff_eq. rewrite safe_true. split.
  - intros Hres p Hp. destruct (first_some f1 (seq 0 9)) as [v|] eqn:E1.
    { subst v. apply first_some_Some in E1 as (i & _ & Hf). unfold f1 in Hf.
      repeat case_match; done. }
    destruct (first_some f2 (box_cells r c)) as [v|] eqn:E2.
    { subst v. apply first_some_Some in E2 as (i & _ & Hf). unfold f2 in Hf.
      repeat case_match; done. }
    rewrite first_some_None in E1. rewrite first_some_None in E2.
    apply elem_of_peers in Hp as [[Hp1 Hp2]|[[Hp1 Hp2]|Hp]].
    + specialize (E1 p.2 ltac:(apply elem_of_seq; lia)). unfold f1 in E1.
      destruct (cell g r p.2 =? n) eqn:E; [done|]. apply Z.eqb_neq in E. by rewrite Hp1.
    + specialize (E1 p.1 ltac:(apply elem_of_seq; lia)). unfold f1 in E1.
      destruct (cell g r p.1 =? n); [done|].
      destruct (cell g p.1 c =? n) eqn:E; [done|]. apply Z.eqb_neq in E. by rewrite Hp1.
    + specialize (E2 p). unfold f2 in E2.
      destruct (cell g p.1 p.2 =? n) eqn:E; [|by apply Z.eqb_neq in E].
      exfalso. assert (Some false = @None bool); [|done]. apply E2.
      unfold box_cells. by apply elem_of_rect.
  - intros Hall.
    assert (first_some f1 (seq 0 9) = None) as ->.
    { apply first_some_None. intros i Hi. apply elem_of_seq in Hi. unfold f1.
      destruct (cell g r i =? n) eqn:E.
      { apply Z.eqb_eq in E. exfalso. apply (Hall (r, i)); [|done].
        apply elem_of_peers. left. cbn. lia. }
      destruct (cell g i c =? n) eqn:E'; [|done].
      apply Z.eqb_eq in E'. exfalso. apply (Hall (i, c)); [|done].
      apply elem_of_peers. right; left. cbn. lia. }
    assert (first_some f2 (box_cells r c) = None) as ->; [|done].
    apply first_some_None. intros p Hp. unfold f2.
    destruct (cell g p.1 p.2 =? n) eqn:E; [|done].
    apply Z.eqb_eq in E. exfalso. apply (Hall p); [|done].
    unfold peers. rewrite !elem_of_app. auto.
Qed.

Lemma find_empty_ok st b g :
  holds st b g → find_empty b st = Ok (first_empty g, st).
Proof.
  intros H. unfold find_empty, first_empty.
  rewrite <- (first_some_find _
    (λ p : nat * nat, if cell g p.1 p.2 =? 0 then Some (p.1, p.2) else None));
    [|by intros []].
  unfold all_cells.
  rewrite <- (first_some_bind (λ r c, if cell g r c =? 0 then Some (r, c) else None)).
  apply for_return_pure. intros r Hr. apply elem_of_seq in Hr.
  apply for_return_pure. intros c Hc. apply elem_of_seq in Hc.
  erewrite bind_ok by (apply (get_item_ok st b g); [done|lia|lia]).
  by destruct (cell g r c =? 0).
Qed.

End HeapOps.

(** ** Empty cells *)

Lemma NoDup_all_cells : NoDup all_cells.
Proof. apply (bool_decide_unpack _). by vm_compute. Qed.

Lemma first_empty_Some g r c :
  first_empty g = Some (r, c) → (r < 9)%nat ∧ (c < 9)%nat ∧ cell g r c = 0.
Proof.
  intros H. apply find_some in H as [Hin Hz].
  apply list_elem_of_In, elem_of_all_cells in Hin. cbn in *.
  apply Z.eqb_eq in Hz. tauto.
Qed.

Lemma first_empty_None g : first_empty g = None ↔ full g.
Proof.
  unfold first_empty, full. split.
  - intros H r c Hr Hc. apply Z.eqb_neq. apply (find_none _ _ H (r, c)).
    apply list_elem_of_In, elem_of_all_cells. done.
  - intros H. destruct (find _ _) as [[r c]|] eqn:E; [|done].
    apply first_empty_Some in E as (Hr & Hc & Hz). by destruct (H r c).
Qed.

Lemma filter_ext_in {A} (P Q : A → Prop) `{∀ x, Decision (P x)}
    `{∀ x, Decision (Q x)} (l : list A) :
  (∀ y, y ∈ l → (P y ↔ Q y)) → filter P l = filter Q l.
Proof.
  induction l as [|a l IH]; intros Hiff; [done|].
  rewrite !filter_cons. rewrite IH by (intros y Hy; apply Hiff; by right).
  destruct (Hiff a ltac:(left)).
  destruct (decide (P a)), (decide (Q a)); tauto.
Qed.

Lemma filter_length_remove {A} (P Q : A → Prop) `{∀ x, Decision (P x)}
    `{∀ x, Decision (Q x)} (l : list A) (x : A) :
  NoDup l → x ∈ l → P x → ¬ Q x → (∀ y, y ≠ x → (P y ↔ Q y)) →
  length (filter P l) = S (length (filter Q l)).
Proof.
  intros Hnd Hin HP HQ Hiff. induction l as [|a l IH]; [by apply elem_of_nil in Hin|].
  apply NoDup_cons in Hnd as [Ha Hnd].
  rewrite !filter_cons. apply elem_of_cons in Hin as [<-|Hin].
  - rewrite decide_True, decide_False by done. cbn. f_equal.
    f_equal. apply filter_ext_in. intros y Hy. apply Hiff.
    intros ->. done.
  - assert (a ≠ x) as Hne by (by intros ->).
    specialize (IH Hnd Hin). destruct (Hiff a Hne).
    destruct (decide (P a)), (decide (Q a)); cbn; try tauto; lia.
Qed.

Lemma empties_upd g r c n :
  grid9 g → (r < 9)%nat → (c < 9)%nat → cell g r c = 0 → n ≠ 0 →
  empties g = S (empties (upd g r c n)).
Proof.
  intros Hg Hr Hc Hz Hn. unfold empties.
  apply (filter_length_remove _ _ _ (r, c)).
  - apply NoDup_all_cells.
  - by apply elem_of_all_cells.
  - done.
  - cbn. by rewrite cell_upd_eq.
  - intros [i j] Hne. cbn. by rewrite cell_upd_ne.
Qed.

Lemma clues_upd g r c :
  grid9 g → (r < 9)%nat → (c < 9)%nat → cell g r c ≠ 0 →
  clues g = S (clues (upd g r c 0)).
Proof.
  intros Hg Hr Hc Hz. unfold clues.
  apply (filter_length_remove _ _ _ (r, c)).
  - apply NoDup_all_cells.
  - by apply elem_of_all_cells.
  - done.
  - cbn. rewrite cell_upd_eq by done. by intros ?.
  - intros [i j] Hne. cbn. by rewrite cell_upd_ne.
Qed.

Lemma empties_le g : (empties g ≤ 81)%nat.
Proof. unfold empties. etrans; [apply length_filter|]. done. Qed.

(** ** Safety and consistency *)

Lemma box_range (r i : nat) :
  (r - r mod 3 ≤ i < r - r mod 3 + 3)%nat ↔ (i / 3 = r / 3)%nat.
Proof.
  pose proof (Nat.div_mod_eq r 3). pose proof (Nat.div_mod_eq i 3).
  pose proof (Nat.mod_upper_bound r 3 ltac:(lia)).
  pose proof (Nat.mod_upper_bound i 3 ltac:(lia)).
  generalize dependent (r / 3)%nat. generalize dependent (i / 3)%nat.
  generalize dependent (r mod 3)%nat. generalize dependent (i mod 3)%nat.
  intros. lia.
Qed.

Lemma same_unit_peers r c p :
  (r < 9)%nat → (c < 9)%nat → (p.1 < 9)%nat → (p.2 < 9)%nat →
  p ∈ peers r c ↔ same_unit p (r, c).
Proof.
  intros Hr Hc Hp1 Hp2. rewrite elem_of_peers, !box_range. unfold same_unit.
  cbn [fst snd]. intuition lia.
Qed.

Lemma safe_self g r c n :
  (r < 9)%nat → (c < 9)%nat → safe g r c n = true → cell g r c ≠ n.
Proof.
  intros Hr Hc Hs. rewrite safe_true in Hs. apply (Hs (r, c)).
  apply elem_of_peers. left. cbn. lia.
Qed.

Lemma same_unit_sym p q : same_unit p q → same_unit q p.
Proof. unfold same_unit. lia. Qed.

Lemma consistent_upd g r c n :
  grid9 g → (r < 9)%nat → (c < 9)%nat →
  consistent g → safe g r c n = true → consistent (upd g r c n).
Proof.
  intros Hg Hr Hc Hcons Hs i j i' j' Hi Hj Hi' Hj'.
  rewrite !cell_upd by done. rewrite safe_true in Hs.
  destruct (decide ((i, j) = (r, c))) as [E|E];
    destruct (decide ((i', j') = (r, c))) as [E'|E'].
  - congruence.
  - intros _ Heq Hu. exfalso. apply (Hs (i', j')); [|done].
    apply same_unit_peers; [done..|]. inversion E; subst. by apply same_unit_sym.
  - intros _ Heq Hu. exfalso. apply (Hs (i, j)); [|done].
    apply same_unit_peers; [done..|]. inversion E'; subst. done.
  - by apply Hcons.
Qed.

Lemma consistentb_true g : consistentb g = true ↔ consistent g.
Proof.
  unfold consistentb, consistent. rewrite forallb_forall. split.
  - intros H r c r' c' Hr Hc Hr' Hc' Hnz Heq Hu.
    specialize (H (r, c)). rewrite forallb_forall in H.
    specialize (H ltac:(by apply list_elem_of_In, elem_of_all_cells) (r', c')
                  ltac:(by apply list_elem_of_In, elem_of_all_cells)).
    cbn in H. rewrite !orb_true_iff, andb_true_iff, negb_true_iff, negb_true_iff in H.
    rewrite Z.eqb_eq, Z.eqb_neq, !Nat.eqb_eq in H.
    destruct H as [[[H|H]|H]|H]; try done.
    + exfalso. apply not_true_iff_false in H. apply H. unfold same_unitb, same_unit in *.
      cbn in *. rewrite !orb_true_iff, andb_true_iff, !Nat.eqb_eq. tauto.
    + destruct H. by subst.
  - intros H [r c] Hin. apply list_elem_of_In, elem_of_all_cells in Hin. cbn in Hin.
    apply forallb_forall. intros [r' c'] Hin'.
    apply list_elem_of_In, elem_of_all_cells in Hin'. cbn in *.
    specialize (H r c r' c' ltac:(lia) ltac:(lia) ltac:(lia) ltac:(lia)).
    destruct (cell g r c =? 0) eqn:E1; [done|]. apply Z.eqb_neq in E1.
    destruct (cell g r c =? cell g r' c') eqn:E2; [|done]. apply Z.eqb_eq in E2.
    destruct (same_unitb (r, c) (r', c')) eqn:E3; [|done]. cbn.
    assert ((r, c) = (r', c')) as [= -> ->].
    { apply H; [done..|]. unfold same_unitb, same_unit in *. cbn in *.
      rewrite !orb_true_iff, andb_true_iff, !Nat.eqb_eq in E3. tauto. }
    by rewrite !Nat.eqb_refl.
Qed.

Lemma grid9b_true g : grid9b g = true ↔ grid9 g.
Proof.
  unfold grid9b, grid9. rewrite andb_true_iff, Nat.eqb_eq, forallb_forall, Forall_forall.
  split; intros [H1 H2]; (split; [done|]); intros row Hrow.
  - apply Nat.eqb_eq, H2. by apply list_elem_of_In.
  - apply Nat.eqb_eq, H2. by apply list_elem_of_In.
Qed.

Lemma fullb_true g : fullb g = true ↔ full g.
Proof.
  unfold fullb, full. rewrite forallb_forall. split.
  - intros H r c Hr Hc. specialize (H (r, c) ltac:(by apply list_elem_of_In, elem_of_all_cells)).
    cbn in H. by apply negb_true_iff, Z.eqb_neq in H.
  - intros H [r c] Hin. apply list_elem_of_In, elem_of_all_cells in Hin. cbn in *.
    apply negb_true_iff, Z.eqb_neq. apply H; lia.
Qed.

Lemma cleared_fromb_true s g : cleared_fromb s g = true ↔ cleared_from s g.
Proof.
  unfold cleared_fromb, cleared_from. rewrite forallb_forall. split.
  - intros H r c Hr Hc. specialize (H (r, c) ltac:(by apply list_elem_of_In, elem_of_all_cells)).
    cbn in H. apply orb_true_iff in H. rewrite !Z.eqb_eq in H. done.
  - intros H [r c] Hin. apply list_elem_of_In, elem_of_all_cells in Hin. cbn in *.
    apply orb_true_iff. rewrite !Z.eqb_eq. apply H; lia.
Qed.

(** ** The search *)


Section Solve.
Context {RNG : Type}.
Variable shuffle : ∀ A : Type, list A → RNG → list A * RNG.
Implicit Types (st : state RNG) (b : list nat) (g : list (list Z)).

Lemma fills_refl g : fills shuffle g g.
Proof. intros r c Hr Hc. case_decide; auto. Qed.

Lemma fills_trans g1 g2 g3 :
  fills shuffle g1 g2 → fills shuffle g2 g3 → fills shuffle g1 g3.
Proof.
  intros H12 H23 r c Hr Hc. specialize (H12 r c Hr Hc). specialize (H23 r c Hr Hc).
  repeat case_decide; try congruence; tauto.
Qed.

Lemma fills_upd g r c n :
  grid9 g → (r < 9)%nat → (c < 9)%nat → cell g r c = 0 →
  candidate shuffle n → fills shuffle g (upd g r c n).
Proof.
  intros Hg Hr Hc Hz Hn i j Hi Hj. rewrite cell_upd by done.
  repeat case_decide; simplify_eq; auto.
Qed.

Lemma intermediate_trans b g g1 h :
  fills shuffle g g1 → (consistent g → consistent g1) →
  intermediate shuffle b g1 h → intermediate shuffle b g h.
Proof.
  intros Hf Hc (gh & Hv & Hg & Hf' & Hc'). exists gh.
  split_and!; auto. by eapply fills_trans.
Qed.

Lemma existsb_Permutation {A} (f : A → bool) (l k : list A) :
  l ≡ₚ k → existsb f l = existsb f k.
Proof.
  intros HP. apply eq_true_iff_eq. rewrite !existsb_exists.
  split; intros (x & Hx & Hf); exists x; split; auto;
    apply list_elem_of_In; apply list_elem_of_In in Hx.
  - by rewrite <- HP.
  - by rewrite HP.
Qed.

Lemma solve_board_spec fuel : ∀ b st g,
  holds st b g → (empties g < fuel)%nat →
  ∃ res st', solve_board shuffle fuel b st = Ok (res, st')
             ∧ solve_post shuffle fuel b g st res st'.
Proof.
  induction fuel as [|fuel IH]; intros b st g H Hfuel; [lia|].
  cbn [solve_board]. rewrite (bind_ok _ _ _ _ _ (find_empty_ok st b g H)).
  destruct (first_empty g) as [[r c]|] eqn:Hfe.
  2:{ (* the grid is full *)
    exists true, st. split; [done|]. split; [done|]. split; [done|].
    split; [by exists []|]. exists g. split_and!; try apply H; auto using fills_refl.
    - by apply first_empty_None.
    - intros _. cbn [solvable]. by rewrite Hfe. }
  apply first_empty_Some in Hfe as Hrc. destruct Hrc as (Hr & Hc & Hz).
  (* the shuffle *)
  unfold shuffled at 1. unfold bind at 1.
  destruct (shuffle Z (seqZ 1 9) (rng st)) as [nums g1] eqn:Hsh.
  set (st1 := {| heap := heap st; rng := g1; hist := hist st |}).
  assert (holds st1 b g) as H1 by done.
  assert (∀ d, d ∈ nums → candidate shuffle d) as Hcand.
  { intros d Hd. exists (rng st). by rewrite Hsh. }
  set (body := λ n : Z,
    ok <- is_safe b r c n ;;
    if ok then
      set_item b r c n ;;
      done <- solve_board shuffle fuel b ;;
      if done then ret (Some true) else set_item b r c 0 ;; ret None
    else ret None).
  (* the loop over the candidates *)
  assert (∀ l st2, (∀ d, d ∈ l → candidate shuffle d) → holds st2 b g →
    ∃ o st', for_return l body st2 = Ok (o, st')
      ∧ same_outside b st2 st'
      ∧ dom (heap st') = dom (heap st2)
      ∧ (∃ new, hist st' = new ++ hist st2 ∧ Forall (intermediate shuffle b g) new)
      ∧ ∃ g', holds st' b g' ∧ fills shuffle g g' ∧ (consistent g → consistent g')
              ∧ match o with
                | Some v => v = true ∧ full g'
                | None => g' = g
                end
              ∧ (shuffle_permutes shuffle →
                 existsb (λ d, safe g r c d && solvable fuel (upd g r c d)) l
                 = bool_decide (o = Some true))) as Hloop.
  { clear st1 H1 Hsh Hcand H nums g1. intros l.
    induction l as [|n l IHl]; intros st2 Hcand H2.
    { exists None, st2. split; [done|]. split; [done|]. split; [done|].
      split; [by exists []|]. exists g. split_and!; try apply H2; auto using fills_refl. }
    cbn [for_return]. unfold body at 1. cbn beta.
    step (is_safe_ok st2 b g r c n H2 Hr Hc).
    destruct (safe g r c n) eqn:Hs.
    2:{ (* not safe: next candidate *)
      cbn. destruct (IHl st2) as (o & st' & Hrun & Hpost); [|done|].
      { intros d Hd. apply Hcand. by right. }
      exists o, st'. split; [done|].
      destruct Hpost as (? & ? & ? & g' & ? & ? & ? & ? & Hex).
      split_and!; auto. exists g'. split_and!; auto.
      intros Hp. cbn [existsb]. rewrite Hs. cbn. by apply Hex. }
    (* safe: place it *)
    assert (n ≠ 0) as Hn0 by (apply safe_self in Hs; [congruence|done..]).
    destruct (set_item_ok st2 b g r c n H2 Hr Hc) as (h3 & Hset & Hv3 & Hout3 & Hdom3).
    set (st3 := {| heap := h3; rng := rng st2; hist := h3 :: hist st2 |}) in *.
    assert (grid9 g) as Hg by apply H2.
    assert (holds st3 b (upd g r c n)) as H3.
    { split; [apply H2|]. split; [done|]. by apply grid9_upd. }
    assert (fills shuffle g (upd g r c n)) as Hf3.
    { apply fills_upd; auto. apply Hcand. left. }
    assert (consistent g → consistent (upd g r c n)) as Hc3.
    { intros. by apply consistent_upd. }
    destruct (IH b st3 (upd g r c n) H3) as (res & st4 & Hrec & Hpost4).
    { pose proof (empties_upd g r c n Hg Hr Hc Hz Hn0). lia. }
    destruct Hpost4 as (Hout4 & Hdom4 & (new4 & Hh4 & Hnew4) & g4 & H4 & Hf4 & Hc4 & Hres4 & Hsol4).
    step Hset. step Hrec.
    destruct res.
    - (* the recursive call succeeded *)
      exists (Some true), st4. split; [done|].
      split. { intros l' Hl'. etrans; [by apply Hout4|by apply Hout3]. }
      split. { etrans; [apply Hdom4|apply Hdom3]. }
      split.
      { exists (new4 ++ [h3]). split; [by rewrite Hh4, <- app_assoc|].
        apply Forall_app. split.
        - eapply Forall_impl; [done|]. intros h. by apply intermediate_trans.
        - apply Forall_singleton. exists (upd g r c n). split_and!; auto using grid9_upd. }
      exists g4. split_and!; try apply H4; auto.
      + by eapply fills_trans.
      + intros Hp. cbn [existsb]. rewrite Hs, <- (Hsol4 Hp).
        cbn. by rewrite bool_decide_true.
    - (* the recursive call failed: undo *)
      subst g4.
      destruct (set_item_ok st4 b (upd g r c n) r c 0 H4 Hr Hc) as (h5 & Hset5 & Hv5 & Hout5 & Hdom5).
      rewrite upd_upd in Hv5 by done. rewrite <- Hz in Hv5 at 1. rewrite upd_same in Hv5 by done.
      set (st5 := {| heap := h5; rng := rng st4; hist := h5 :: hist st4 |}) in *.
      step Hset5.
      assert (holds st5 b g) as H5. { split; [apply H2|]. done. }
      destruct (IHl st5) as (o & st' & Hrun & Hpost); [|done|].
      { intros d Hd. apply Hcand. by right. }
      change (bind (ret None) _ st5) with (for_return l body st5).
      exists o, st'. split; [done|].
      destruct Hpost as (Hout & Hdom & (new & Hh & Hnew) & g' & H' & Hf' & Hc' & Hres' & Hex).
      split.
      { intros l' Hl'. etrans; [by apply Hout|]. etrans; [by apply Hout5|].
        etrans; [by apply Hout4|by apply Hout3]. }
      split.
      { etrans; [apply Hdom|]. etrans; [apply Hdom5|]. etrans; [apply Hdom4|apply Hdom3]. }
      split.
      { exists (new ++ [h5] ++ new4 ++ [h3]). split.
        { rewrite Hh. cbn [hist st5]. rewrite Hh4. cbn [hist st3].
          by rewrite <- !app_assoc. }
        rewrite !Forall_app. split_and!; auto.
        - apply Forall_singleton. exists g. split_and!; auto using fills_refl.
        - eapply Forall_impl; [done|]. intros h. by apply intermediate_trans.
        - apply Forall_singleton. exists (upd g r c n). split_and!; auto using grid9_upd. }
      exists g'. split_and!; auto; try apply H'.
      intros Hp. cbn [existsb]. rewrite Hs, <- (Hsol4 Hp). cbn. by apply Hex. }
  destruct (Hloop nums st1 Hcand H1) as (o & st' & Hrun & Hout & Hdom & Hhist & g' & H' & Hf' & Hc' & Hres & Hex).
  fold body. rewrite (bind_ok _ _ _ _ _ Hrun).
  exists (match o with Some v => v | None => false end), st'. split.
  { by destruct o. }
  split; [done|]. split; [done|]. split; [done|].
  exists g'. split_and!; auto; try apply H'.
  - destruct o as [v|]; [by destruct Hres as [-> ?]|done].
  - intros Hp. cbn [solvable]. rewrite Hfe.
    assert (nums ≡ₚ seqZ 1 9) as HP. { specialize (Hp Z (seqZ 1 9) (rng st)). by rewrite Hsh in Hp. }
    rewrite <- (existsb_Permutation _ _ _ HP), (Hex Hp).
    destruct o as [v|]; [destruct Hres as [-> _]|]; done.
Qed.

End Solve.

(** ** Solved grids *)

Lemma NoDup_fmap_on {A B} (f : A → B) (l : list A) :
  NoDup l → (∀ x y, x ∈ l → y ∈ l → f x = f y → x = y) → NoDup (f <$> l).
Proof.
  induction 1 as [|a l Ha Hnd IH]; intros Hinj; [constructor|].
  cbn. constructor.
  - intros Hin. apply list_elem_of_fmap in Hin as (y & Hfy & Hy).
    assert (a = y) as -> by (apply Hinj; [left|by right|done]). done.
  - apply IH. intros x y Hx Hy. apply Hinj; by right.
Qed.

Lemma NoDup_fmap_eq {A B} (f : A → B) (l : list A) x y :
  NoDup (f <$> l) → x ∈ l → y ∈ l → f x = f y → x = y.
Proof.
  induction l as [|a l IH]; intros Hnd Hx Hy Hf; [by apply elem_of_nil in Hx|].
  cbn in Hnd. apply NoDup_cons in Hnd as [Ha Hnd].
  apply elem_of_cons in Hx as [->|Hx]; apply elem_of_cons in Hy as [->|Hy]; auto.
  - exfalso. apply Ha. rewrite Hf. by apply list_elem_of_fmap_2.
  - exfalso. apply Ha. rewrite <- Hf. by apply list_elem_of_fmap_2.
Qed.

Lemma NoDup_digits : NoDup (seqZ 1 9).
Proof. apply NoDup_seqZ. Qed.

Lemma elem_of_digits d : d ∈ seqZ 1 9 ↔ 1 ≤ d ≤ 9.
Proof. rewrite elem_of_seqZ. lia. Qed.

(** A unit of nine cells contains each digit once exactly when it is a
    permutation of 1..9. *)
Lemma each_digit_once_perm (l : list Z) :
  length l = 9%nat → each_digit_once l → l ≡ₚ seqZ 1 9.
Proof.
  intros Hlen Hone. symmetry. apply submseteq_length_Permutation; [|by rewrite Hlen].
  apply NoDup_submseteq; [apply NoDup_digits|].
  intros d Hd. apply elem_of_digits in Hd. specialize (Hone d Hd).
  destruct (filter (λ x, x = d) l) as [|x k] eqn:E; [done|].
  assert (x ∈ filter (λ x, x = d) l) as Hx by (rewrite E; left).
  apply list_elem_of_filter in Hx as [-> Hx]. done.
Qed.

Lemma perm_each_digit_once (l : list Z) :
  l ≡ₚ seqZ 1 9 → each_digit_once l.
Proof.
  intros HP d Hd. rewrite HP.
  assert (d = 1 ∨ d = 2 ∨ d = 3 ∨ d = 4 ∨ d = 5 ∨ d = 6 ∨ d = 7 ∨ d = 8 ∨ d = 9)
    as Hcases by lia.
  destruct Hcases as [->|[->|[->|[->|[->|[->|[->|[->| ->]]]]]]]]; reflexivity.
Qed.

Lemma each_digit_onceb_true l : each_digit_onceb l = true ↔ each_digit_once l.
Proof.
  unfold each_digit_onceb, each_digit_once. rewrite forallb_forall. split.
  - intros H d Hd. apply Nat.eqb_eq, H, list_elem_of_In, elem_of_digits. done.
  - intros H d Hd. apply Nat.eqb_eq, H, elem_of_digits, list_elem_of_In. done.
Qed.

Lemma solvedb_true g : solvedb g = true ↔ solved g.
Proof.
  unfold solvedb, solved. rewrite forallb_forall. split.
  - intros H k Hk. specialize (H k ltac:(apply list_elem_of_In, elem_of_seq; lia)).
    rewrite !andb_true_iff, !each_digit_onceb_true in H. tauto.
  - intros H k Hk. apply list_elem_of_In, elem_of_seq in Hk.
    rewrite !andb_true_iff, !each_digit_onceb_true. destruct (H k) as (? & ? & ?); [lia|]. tauto.
Qed.

Lemma length_row_of g r : length (row_of g r) = 9%nat.
Proof. unfold row_of. by rewrite length_fmap, length_seq. Qed.

Lemma length_col_of g c : length (col_of g c) = 9%nat.
Proof. unfold col_of. by rewrite length_fmap, length_seq. Qed.

Lemma length_box_of g k : length (box_of g k) = 9%nat.
Proof. unfold box_of, box_cells. rewrite length_fmap. done. Qed.

(** The subgrid number of a cell. *)
Lemma box_index (q q' : nat) :
  (q' < 3)%nat → ((3 * q + q') / 3 = q)%nat ∧ ((3 * q + q') mod 3 = q')%nat.
Proof.
  intros Hq'. split.
  - symmetry. by apply (Nat.div_unique _ _ _ q').
  - symmetry. by apply (Nat.mod_unique _ _ q).
Qed.

Lemma elem_of_box r c :
  (r < 9)%nat → (c < 9)%nat →
  (r, c) ∈ box_cells (3 * ((3 * (r / 3) + c / 3) / 3)) (3 * ((3 * (r / 3) + c / 3) mod 3)).
Proof.
  intros Hr Hc. unfold box_cells. apply elem_of_rect. cbn [fst snd].
  assert (c / 3 < 3)%nat as Hc3 by (apply Nat.Div0.div_lt_upper_bound; lia).
  destruct (box_index (r / 3) (c / 3) Hc3) as [-> ->].
  rewrite !(Nat.mul_comm 3), !Nat.Div0.mod_mul.
  pose proof (Nat.div_mod_eq r 3). pose proof (Nat.div_mod_eq c 3).
  pose proof (Nat.mod_upper_bound r 3 ltac:(lia)).
  pose proof (Nat.mod_upper_bound c 3 ltac:(lia)).
  generalize dependent (r / 3)%nat. generalize dependent (c / 3)%nat.
  generalize dependent (r mod 3)%nat. generalize dependent (c mod 3)%nat.
  intros. lia.
Qed.

Lemma box_cells_facts k :
  (k < 9)%nat →
  NoDup (box_cells (3 * (k / 3)) (3 * (k mod 3)))
  ∧ Forall (λ p : nat * nat, (p.1 < 9)%nat ∧ (p.2 < 9)%nat
                             ∧ (p.1 / 3 = k / 3)%nat ∧ (p.2 / 3 = k mod 3)%nat)
           (box_cells (3 * (k / 3)) (3 * (k mod 3))).
Proof.
  intros Hk. assert (k ∈ seq 0 9) as Hin by (apply elem_of_seq; lia).
  clear Hk. revert k Hin. apply Forall_forall.
  apply (bool_decide_unpack _). by vm_compute.
Qed.

Lemma solved_perm g k :
  solved g → (k < 9)%nat →
  row_of g k ≡ₚ seqZ 1 9 ∧ col_of g k ≡ₚ seqZ 1 9 ∧ box_of g k ≡ₚ seqZ 1 9.
Proof.
  intros Hs Hk. destruct (Hs k Hk) as (H1 & H2 & H3).
  split_and!; apply each_digit_once_perm;
    auto using length_row_of, length_col_of, length_box_of.
Qed.

Lemma solved_range g r c :
  solved g → (r < 9)%nat → (c < 9)%nat → 1 ≤ cell g r c ≤ 9.
Proof.
  intros Hs Hr Hc. destruct (solved_perm g r Hs Hr) as (HP & _ & _).
  apply elem_of_digits. rewrite <- HP. unfold row_of.
  apply (list_elem_of_fmap_2 (λ c, cell g r c)). apply elem_of_seq. lia.
Qed.

Lemma solved_full g : solved g → full g.
Proof. intros Hs r c Hr Hc. pose proof (solved_range g r c Hs Hr Hc). lia. Qed.

Lemma solved_consistent g : solved g → consistent g.
Proof.
  intros Hs r c r' c' Hr Hc Hr' Hc' _ Heq [Hu|[Hu|[Hu1 Hu2]]]; cbn [fst snd] in *.
  - subst r'. f_equal. destruct (solved_perm g r Hs Hr) as (HP & _ & _).
    apply (NoDup_fmap_eq (λ c, cell g r c) (seq 0 9)); [|apply elem_of_seq; lia..|done].
    change (NoDup (row_of g r)). rewrite HP. apply NoDup_digits.
  - subst c'. f_equal. destruct (solved_perm g c Hs Hc) as (_ & HP & _).
    apply (NoDup_fmap_eq (λ r, cell g r c) (seq 0 9)); [|apply elem_of_seq; lia..|done].
    change (NoDup (col_of g c)). rewrite HP. apply NoDup_digits.
  - assert (c / 3 < 3)%nat by (apply Nat.Div0.div_lt_upper_bound; lia).
    assert (r / 3 < 3)%nat by (apply Nat.Div0.div_lt_upper_bound; lia).
    set (k := (3 * (r / 3) + c / 3)%nat).
    assert (k < 9)%nat as Hk by (unfold k; lia).
    destruct (solved_perm g k Hs Hk) as (_ & _ & HP).
    apply (NoDup_fmap_eq (λ p : nat * nat, cell g p.1 p.2)
             (box_cells (3 * (k / 3)) (3 * (k mod 3)))).
    + change (NoDup (box_of g k)). rewrite HP. apply NoDup_digits.
    + by apply elem_of_box.
    + unfold k. rewrite Hu1, Hu2. by apply elem_of_box.
    + done.
Qed.

Lemma unit_perm (f : nat * nat → Z) (l : list (nat * nat)) :
  NoDup l → length l = 9%nat →
  (∀ p q, p ∈ l → q ∈ l → f p = f q → p = q) →
  (∀ p, p ∈ l → 1 ≤ f p ≤ 9) →
  f <$> l ≡ₚ seqZ 1 9.
Proof.
  intros Hnd Hlen Hinj Hrange.
  apply submseteq_length_Permutation; [|by rewrite length_fmap, Hlen].
  apply NoDup_submseteq; [by apply NoDup_fmap_on|].
  intros d Hd. apply list_elem_of_fmap in Hd as (p & -> & Hp).
  apply elem_of_digits. auto.
Qed.

Lemma solved_intro g :
  consistent g → (∀ r c, (r < 9)%nat → (c < 9)%nat → 1 ≤ cell g r c ≤ 9) →
  solved g.
Proof.
  intros Hcons Hrange k Hk. split_and!; apply perm_each_digit_once.
  - unfold row_of.
    assert ((λ c, cell g k c) <$> seq 0 9
            = (λ p : nat * nat, cell g p.1 p.2) <$> ((λ c, (k, c)) <$> seq 0 9)) as ->
      by (by rewrite <- list_fmap_compose).
    apply unit_perm.
    + apply NoDup_fmap_2; [by intros ?? [=]|apply NoDup_seq].
    + by rewrite length_fmap, length_seq.
    + intros p q Hp Hq Heq.
      apply list_elem_of_fmap in Hp as (c & -> & Hc), Hq as (c' & -> & Hc').
      apply elem_of_seq in Hc, Hc'. cbn [fst snd] in *.
      specialize (Hrange k c ltac:(lia) ltac:(lia)).
      apply Hcons; try lia; try done. by left.
    + intros p Hp. apply list_elem_of_fmap in Hp as (c & -> & Hc).
      apply elem_of_seq in Hc. apply Hrange; cbn; lia.
  - unfold col_of.
    assert ((λ r, cell g r k) <$> seq 0 9
            = (λ p : nat * nat, cell g p.1 p.2) <$> ((λ r, (r, k)) <$> seq 0 9)) as ->
      by (by rewrite <- list_fmap_compose).
    apply unit_perm.
    + apply NoDup_fmap_2; [by intros ?? [=]|apply NoDup_seq].
    + by rewrite length_fmap, length_seq.
    + intros p q Hp Hq Heq.
      apply list_elem_of_fmap in Hp as (c & -> & Hc), Hq as (c' & -> & Hc').
      apply elem_of_seq in Hc, Hc'. cbn [fst snd] in *.
      specialize (Hrange c k ltac:(lia) ltac:(lia)).
      apply Hcons; try lia; try done. by right; left.
    + intros p Hp. apply list_elem_of_fmap in Hp as (c & -> & Hc).
      apply elem_of_seq in Hc. apply Hrange; cbn; lia.
  - unfold box_of. destruct (box_cells_facts k Hk) as [Hnd Hall].
    rewrite Forall_forall in Hall. apply unit_perm.
    + done.
    + done.
    + intros [r c] [r' c'] Hp Hq Heq.
      destruct (Hall _ Hp) as (? & ? & ? & ?), (Hall _ Hq) as (? & ? & ? & ?).
      cbn [fst snd] in *. specialize (Hrange r c ltac:(lia) ltac:(lia)).
      apply Hcons; try lia; try done.
      right; right. cbn [fst snd]. split; congruence.
    + intros [r c] Hp. destruct (Hall _ Hp) as (? & ? & ? & ?). by apply Hrange.
Qed.

(** ** Grids cleared from a solved grid *)

Lemma cleared_from_consistent s g :
  solved s → cleared_from s g → consistent g.
Proof.
  intros Hs Hcl r c r' c' Hr Hc Hr' Hc' Hnz Heq Hu.
  apply (solved_consistent s Hs); auto.
  - pose proof (solved_range s r c Hs Hr Hc). lia.
  - destruct (Hcl r c Hr Hc), (Hcl r' c' Hr' Hc'); congruence.
Qed.

Lemma cleared_from_upd s g r c :
  grid9 g → (r < 9)%nat → (c < 9)%nat →
  cleared_from s g → cleared_from s (upd g r c (cell s r c)).
Proof.
  intros Hg Hr Hc Hcl i j Hi Hj. rewrite cell_upd by done.
  case_decide; simplify_eq; auto.
Qed.

Lemma cleared_from_clear s g r c :
  grid9 g → (r < 9)%nat → (c < 9)%nat →
  cleared_from s g → cleared_from s (upd g r c 0).
Proof.
  intros Hg Hr Hc Hcl i j Hi Hj. rewrite cell_upd by done.
  case_decide; simplify_eq; auto.
Qed.

Lemma cleared_from_refl s : cleared_from s s.
Proof. intros r c _ _. by right. Qed.

(** The search succeeds on every grid cleared from a solved grid. *)
Lemma cleared_from_solvable s fuel : ∀ g,
  solved s → grid9 g → cleared_from s g → (empties g < fuel)%nat →
  solvable fuel g = true.
Proof.
  induction fuel as [|fuel IH]; intros g Hs Hg Hcl Hfuel; [lia|].
  cbn [solvable]. destruct (first_empty g) as [[r c]|] eqn:Hfe; [|done].
  apply first_empty_Some in Hfe as (Hr & Hc & Hz).
  pose proof (solved_range s r c Hs Hr Hc) as Hd.
  apply existsb_exists. exists (cell s r c). split.
  { apply list_elem_of_In, elem_of_digits. done. }
  apply andb_true_iff. split.
  - apply safe_true. intros [i j] Hp Heq. cbn [fst snd] in *.
    assert ((i < 9)%nat ∧ (j < 9)%nat) as [Hi Hj].
    { apply elem_of_peers in Hp. cbn [fst snd] in Hp.
      pose proof (Nat.mod_upper_bound r 3 ltac:(lia)).
      pose proof (Nat.mod_upper_bound c 3 ltac:(lia)).
      pose proof (Nat.div_mod_eq r 3). pose proof (Nat.div_mod_eq c 3).
      generalize dependent (r / 3)%nat. generalize dependent (c / 3)%nat.
      generalize dependent (r mod 3)%nat. generalize dependent (c mod 3)%nat.
      intros. lia. }
    destruct (Hcl i j Hi Hj) as [H0|Hsame]; [lia|].
    assert ((i, j) = (r, c)) as [= -> ->].
    { apply (solved_consistent s Hs); auto; [lia|congruence|].
      by apply same_unit_peers. }
    lia.
  - apply IH; auto using grid9_upd, cleared_from_upd.
    pose proof (empties_upd g r c (cell s r c) Hg Hr Hc Hz ltac:(lia)). lia.
Qed.

Lemma forallb_false {A} (f : A → bool) (l : list A) :
  forallb f l = false ↔ ∃ x, x ∈ l ∧ f x = false.
Proof.
  induction l as [|a l IH]; cbn.
  - split; [done|]. intros (x & Hx & _). by apply elem_of_nil in Hx.
  - rewrite andb_false_iff, IH. split.
    + intros [H|(x & Hx & H)]; [exists a|exists x]; split; auto; by constructor.
    + intros (x & Hx & H). apply elem_of_cons in Hx as [->|Hx]; eauto.
Qed.

Lemma safe_false g r c n :
  safe g r c n = false ↔ in_row g r n ∨ in_col g c n ∨ in_box g r c n.
Proof.
  unfold safe. rewrite forallb_false. split.
  - intros ([i j] & Hp & Hf). apply negb_false_iff, Z.eqb_eq in Hf.
    apply elem_of_peers in Hp. cbn [fst snd] in *.
    destruct Hp as [[-> H]|[[-> H]|[H1 H2]]].
    + left. by exists j.
    + right; left. by exists i.
    + right; right. by exists i, j.
  - intros [(i & Hi & H)|[(i & Hi & H)|(i & j & Hi & Hj & H)]].
    + exists (r, i). split; [apply elem_of_peers; cbn; lia|].
      apply negb_false_iff, Z.eqb_eq. done.
    + exists (i, c). split; [apply elem_of_peers; cbn; lia|].
      apply negb_false_iff, Z.eqb_eq. done.
    + exists (i, j). split; [apply elem_of_peers; cbn [fst snd]; by right; right|].
      apply negb_false_iff, Z.eqb_eq. done.
Qed.

Lemma view_lookup_eq (h h' : gmap nat (list Z)) b g l :
  view h b = Some g → view h' b = Some g → l ∈ b → h' !! l = h !! l.
Proof.
  rewrite !view_Forall2. intros H H' Hl.
  apply list_elem_of_lookup in Hl as [i Hi].
  destruct (Forall2_lookup_l _ _ _ _ _ H Hi) as (row & Hrow & Hh).
  destruct (Forall2_lookup_l _ _ _ _ _ H' Hi) as (row' & Hrow' & Hh').
  congruence.
Qed.

Section Claims.
Context {RNG : Type}.
Variable shuffle : ∀ A : Type, list A → RNG → list A * RNG.
Implicit Types (st : state RNG) (b : list nat) (g : list (list Z)).

Lemma candidate_range d :
  shuffle_permutes shuffle → candidate shuffle d → 1 ≤ d ≤ 9.
Proof.
  intros Hp [g0 Hd]. rewrite (Hp Z) in Hd. by apply elem_of_digits.
Qed.

(** The search on a grid cleared from a solved grid. *)
Lemma solve_cleared fuel st b g s :
  shuffle_permutes shuffle → holds st b g → solved s → cleared_from s g →
  (81 < fuel)%nat →
  ∃ st' g', solve_board shuffle fuel b st = Ok (true, st')
            ∧ solve_post shuffle fuel b g st true st'
            ∧ holds st' b g' ∧ full g' ∧ solved g' ∧ fills shuffle g g'.
Proof.
  intros Hp H Hs Hcl Hfuel.
  destruct (solve_board_spec shuffle fuel b st g H) as (res & st' & Hrun & Hpost).
  { pose proof (empties_le g). lia. }
  pose proof Hpost as (_ & _ & _ & g' & H' & Hf & Hc & Hres & Hsol).
  assert (solvable fuel g = true) as Hsv.
  { apply (cleared_from_solvable s); auto; [apply H|].
    pose proof (empties_le g). lia. }
  rewrite (Hsol Hp), Hsv in Hrun, Hres, Hpost.
  exists st', g'. split_and!; auto.
  apply solved_intro.
  - apply Hc. by eapply cleared_from_consistent.
  - intros r c Hr Hc'. specialize (Hf r c Hr Hc'). specialize (Hres r c Hr Hc').
    case_decide as Hz.
    + destruct Hf as [?|Hcand]; [done|]. by apply candidate_range.
    + rewrite Hf. destruct (Hcl r c Hr Hc') as [?|Heq]; [done|].
      rewrite Heq. by apply solved_range.
Qed.

(** C1: on a grid obtained from a solved grid by clearing cells,
    [solve_board] returns true and leaves a full grid in which every row,
    column and subgrid contains each digit 1-9 exactly once. *)
Theorem solve_board_completes_cleared fuel st b g s :
  shuffle_permutes shuffle → holds st b g → solved s → cleared_from s g →
  (81 < fuel)%nat →
  ∃ st' g', solve_board shuffle fuel b st = Ok (true, st')
            ∧ holds st' b g' ∧ full g' ∧ solved g'.
Proof.
  intros Hp H Hs Hcl Hfuel.
  destruct (solve_cleared fuel st b g s Hp H Hs Hcl Hfuel)
    as (st' & g' & Hrun & _ & H' & Hfull & Hsolved & _).
  by exists st', g'.
Qed.

(** C2: [solve_board] raises no error, and when it returns false every
    row object is as it was at the start of the call. *)
Theorem solve_board_false_restores fuel st b g :
  holds st b g → (81 < fuel)%nat →
  ∃ res st', solve_board shuffle fuel b st = Ok (res, st')
             ∧ (res = false → heap st' = heap st ∧ holds st' b g).
Proof.
  intros H Hfuel.
  destruct (solve_board_spec shuffle fuel b st g H) as (res & st' & Hrun & Hpost).
  { pose proof (empties_le g). lia. }
  exists res, st'. split; [done|]. intros ->.
  destruct Hpost as (Hout & _ & _ & g' & H' & _ & _ & -> & _).
  split; [|done]. apply map_eq. intros l.
  destruct (decide (l ∈ b)) as [Hl|Hl]; [|by apply Hout].
  destruct H as (_ & Hv & _), H' as (_ & Hv' & _). by eapply view_lookup_eq.
Qed.

(** C5: [is_safe] returns false exactly when the digit appears in the
    row, the column or the subgrid of the cell, true otherwise, and leaves
    the state as it is. *)
Theorem is_safe_spec st b g r c n :
  holds st b g → (r < 9)%nat → (c < 9)%nat →
  ∃ v, is_safe b r c n st = Ok (v, st)
       ∧ (v = false ↔ in_row g r n ∨ in_col g c n ∨ in_box g r c n)
       ∧ (v = true ↔ ¬ (in_row g r n ∨ in_col g c n ∨ in_box g r c n)).
Proof.
  intros H Hr Hc. exists (safe g r c n). split; [by apply is_safe_ok|].
  split; [apply safe_false|]. rewrite <- safe_false. by destruct (safe g r c n).
Qed.

(** C6: when the non-zero cells of the input satisfy row/column/subgrid
    uniqueness, so do the non-zero cells of the grid after every
    assignment that a run of [solve_board] makes, and of the grid it
    leaves. *)
Theorem solve_board_keeps_uniqueness fuel st b g :
  holds st b g → consistent g → (81 < fuel)%nat →
  ∃ res st' new,
    solve_board shuffle fuel b st = Ok (res, st')
    ∧ hist st' = new ++ hist st
    ∧ Forall (λ h, ∃ gh, view h b = Some gh ∧ consistent gh) new
    ∧ ∃ g', holds st' b g' ∧ consistent g'.
Proof.
  intros H Hcons Hfuel.
  destruct (solve_board_spec shuffle fuel b st g H) as (res & st' & Hrun & Hpost).
  { pose proof (empties_le g). lia. }
  destruct Hpost as (_ & _ & (new & Hh & Hnew) & g' & H' & _ & Hc & _).
  exists res, st', new. split_and!; auto.
  - eapply Forall_impl; [done|]. intros h (gh & Hv & _ & _ & Hcgh). eauto.
  - eauto.
Qed.

(** C10: on a grid with no zero cell [solve_board] returns true at once:
    it draws no random number, assigns nothing and checks nothing, so the
    grid may well violate row/column/subgrid uniqueness. *)
Theorem solve_board_full_grid fuel st b g :
  holds st b g → full g → solve_board shuffle (S fuel) b st = Ok (true, st).
Proof.
  intros H Hfull. cbn [solve_board].
  step (find_empty_ok st b g H).
  apply first_empty_None in Hfull. by rewrite Hfull.
Qed.

End Claims.

(** ** Running the engine *)

Lemma demo_shuffle_permutes : shuffle_permutes demo_shuffle.
Proof.
  intros A l g0. cbn. unfold rotate.
  by rewrite Permutation_app_comm, take_drop.
Qed.

Lemma heap_of_holds g :
  grid9b g = true → holds (demo_state (heap_of g)) demo_board g.
Proof.
  intros Hg. apply grid9b_true in Hg as Hg'. split; [apply NoDup_seq|]. split; [|done].
  destruct Hg' as [Hlen Hrows].
  do 10 (destruct g as [|? g]; try done).
Qed.

(** ** Allocation and copies *)

Lemma view_preserved (h h' : gmap nat (list Z)) b g :
  view h b = Some g → (∀ l row, h !! l = Some row → h' !! l = Some row) →
  view h' b = Some g.
Proof.
  rewrite !view_Forall2. intros H Hp. eapply Forall2_impl; [done|]. auto.
Qed.

Lemma view_dom (h : gmap nat (list Z)) b g l :
  view h b = Some g → l ∈ b → l ∈ dom h.
Proof.
  rewrite view_Forall2. intros H Hl. apply list_elem_of_lookup in Hl as [i Hi].
  destruct (Forall2_lookup_l _ _ _ _ _ H Hi) as (row & _ & Hh).
  apply elem_of_dom. by eexists.
Qed.

Section Alloc.
Context {RNG : Type}.
Implicit Types (st : state RNG) (b : list nat) (g : list (list Z)).

Lemma preserves_refl st : preserves st st.
Proof. by intros l row. Qed.

Lemma preserves_trans st1 st2 st3 :
  preserves st1 st2 → preserves st2 st3 → preserves st1 st3.
Proof. intros H1 H2 l row H. auto. Qed.

Lemma alloc_ok st row :
  ∃ st', alloc row st = Ok (fresh (dom (heap st)), st')
         ∧ heap st' = <[fresh (dom (heap st)):=row]> (heap st)
         ∧ rng st' = rng st ∧ hist st' = hist st
         ∧ preserves st st'.
Proof.
  eexists. split; [done|]. split_and!; try done.
  intros l row' Hl. cbn. rewrite lookup_insert_ne; [done|].
  intros <-. apply (is_fresh (dom (heap st))). apply elem_of_dom. by eexists.
Qed.

Lemma copy_board_spec b : ∀ st g,
  view (heap st) b = Some g →
  ∃ b' st', copy_board b st = Ok (b', st')
    ∧ NoDup b' ∧ (∀ l, l ∈ b' → l ∉ dom (heap st))
    ∧ view (heap st') b' = Some g
    ∧ preserves st st'
    ∧ rng st' = rng st ∧ hist st' = hist st.
Proof.
  unfold copy_board. induction b as [|l b IH]; intros st g Hv.
  { apply view_Forall2 in Hv. inversion Hv; subst.
    exists [], st. split_and!; auto using preserves_refl, NoDup_nil_2.
    intros l Hl. by apply elem_of_nil in Hl. }
  apply view_Forall2 in Hv. inversion Hv as [|? row ? gt Hl Ht]; subst.
  apply view_Forall2 in Ht.
  destruct (alloc_ok st row) as (st1 & Hal & Hh1 & Hr1 & Hhi1 & Hp1).
  set (l0 := fresh (dom (heap st))) in *.
  destruct (IH st1 gt) as (b' & st' & Hrun & Hnd & Hfr & Hv' & Hp' & Hr' & Hhi').
  { eapply view_preserved; [done|]. apply Hp1. }
  cbn [list_comp].
  assert (load l st = Ok (row, st)) as Hload by (unfold load; by rewrite Hl).
  step Hload. step Hal. step Hrun.
  exists (l0 :: b'), st'. split; [done|].
  assert (l0 ∈ dom (heap st1)) as Hl0.
  { rewrite Hh1. apply elem_of_dom. rewrite lookup_insert_eq. by eexists. }
  split_and!.
  - apply NoDup_cons. split; [|done]. intros Hin. by apply (Hfr l0).
  - intros l' Hl'. apply elem_of_cons in Hl' as [->|Hl'].
    + apply is_fresh.
    + intros Hd. apply (Hfr l' Hl'). rewrite Hh1, dom_insert_L. set_solver.
  - apply view_Forall2. constructor; [|by apply view_Forall2].
    apply Hp'. rewrite Hh1. by rewrite lookup_insert_eq.
  - by eapply preserves_trans.
  - congruence.
  - congruence.
Qed.

Lemma new_rows_spec (n : nat) (row : list Z) : ∀ st,
  ∃ b st', list_comp (seq 0 n) (λ _, alloc row) st = Ok (b, st')
    ∧ NoDup b ∧ (∀ l, l ∈ b → l ∉ dom (heap st))
    ∧ view (heap st') b = Some (replicate n row)
    ∧ preserves st st'
    ∧ rng st' = rng st ∧ hist st' = hist st.
Proof.
  generalize 0%nat. induction n as [|n IH]; intros k st.
  { exists [], st. split_and!; auto using preserves_refl, NoDup_nil_2.
    intros l Hl. by apply elem_of_nil in Hl. }
  destruct (alloc_ok st row) as (st1 & Hal & Hh1 & Hr1 & Hhi1 & Hp1).
  set (l0 := fresh (dom (heap st))) in *.
  destruct (IH (S k) st1) as (b' & st' & Hrun & Hnd & Hfr & Hv' & Hp' & Hr' & Hhi').
  cbn [seq list_comp]. step Hal. step Hrun.
  exists (l0 :: b'), st'. split; [done|].
  assert (l0 ∈ dom (heap st1)) as Hl0.
  { rewrite Hh1. apply elem_of_dom. rewrite lookup_insert_eq. by eexists. }
  split_and!.
  - apply NoDup_cons. split; [|done]. intros Hin. by apply (Hfr l0).
  - intros l' Hl'. apply elem_of_cons in Hl' as [->|Hl'].
    + apply is_fresh.
    + intros Hd. apply (Hfr l' Hl'). rewrite Hh1, dom_insert_L. set_solver.
  - apply view_Forall2. cbn. constructor; [|by apply view_Forall2].
    apply Hp'. rewrite Hh1. by rewrite lookup_insert_eq.
  - by eapply preserves_trans.
  - congruence.
  - congruence.
Qed.

End Alloc.

(** ** The seeding loops *)

Section Seeding.
Context {RNG : Type}.
Variable shuffle : ∀ A : Type, list A → RNG → list A * RNG.
Implicit Types (st : state RNG) (b : list nat) (g : list (list Z)).

Lemma same_outside_refl b st : same_outside b st st.
Proof. by intros l. Qed.

Lemma same_outside_trans b st1 st2 st3 :
  same_outside b st1 st2 → same_outside b st2 st3 → same_outside b st1 st3.
Proof. intros H1 H2 l Hl. etrans; [by apply H2|by apply H1]. Qed.

Lemma index_ok {A} `{Inhabited A} (l : list A) i st :
  (i < length l)%nat → index l i st = Ok (l !!! i, st).
Proof.
  intros Hi. unfold index. destruct (lookup_lt_is_Some_2 l i Hi) as [x Hx].
  rewrite Hx. by rewrite (list_lookup_total_correct _ _ _ Hx).
Qed.

Lemma fill_row_loop nums b r : ∀ cs st g idx,
  holds st b g → (r < 9)%nat → Forall (λ c, (c < 9)%nat) cs →
  (idx + length cs ≤ length nums)%nat →
  ∃ st', for_fold cs (λ c idx,
           v <- index nums idx ;;
           set_item b r c v ;;
           ret (idx + 1)%nat) idx st
         = Ok ((fill_row nums r cs (g, idx)).2, st')
       ∧ holds st' b (fill_row nums r cs (g, idx)).1
       ∧ (fill_row nums r cs (g, idx)).2 = (idx + length cs)%nat
       ∧ same_outside b st st' ∧ dom (heap st') = dom (heap st)
       ∧ rng st' = rng st.
Proof.
  induction cs as [|c cs IH]; intros st g idx H Hr Hcs Hlen.
  { exists st. cbn. split_and!; auto using same_outside_refl. }
  apply Forall_cons in Hcs as [Hc Hcs]. cbn [length] in Hlen.
  destruct (set_item_ok st b g r c (nums !!! idx) H Hr Hc) as (h1 & Hset & Hv1 & Hout1 & Hdom1).
  set (st1 := {| heap := h1; rng := rng st; hist := h1 :: hist st |}) in *.
  assert (holds st1 b (upd g r c (nums !!! idx))) as H1.
  { split; [apply H|]. split; [done|]. apply grid9_upd, H. }
  destruct (IH st1 (upd g r c (nums !!! idx)) (S idx) H1 Hr Hcs ltac:(lia))
    as (st' & Hrun & H' & Hidx & Hout & Hdom & Hrng).
  cbn [for_fold]. step (index_ok nums idx st ltac:(lia)). step Hset.
  unfold ret at 1. unfold bind at 1. replace (idx + 1)%nat with (S idx) by lia.
  exists st'.
  change (fill_row nums r (c :: cs) (g, idx))
    with (fill_row nums r cs (upd g r c (nums !!! idx), S idx)).
  split_and!; auto.
  - rewrite Hidx. cbn [length]. lia.
  - intros l Hl. etrans; [by apply Hout|by apply Hout1].
  - etrans; [apply Hdom|apply Hdom1].
Qed.

Lemma fill_block_loop nums b cs : ∀ rs st g idx,
  holds st b g → Forall (λ r, (r < 9)%nat) rs → Forall (λ c, (c < 9)%nat) cs →
  (idx + length rs * length cs ≤ length nums)%nat →
  ∃ st', for_fold rs (λ r idx,
           for_fold cs (λ c idx,
             v <- index nums idx ;;
             set_item b r c v ;;
             ret (idx + 1)%nat) idx) idx st
         = Ok ((fill_block nums rs cs (g, idx)).2, st')
       ∧ holds st' b (fill_block nums rs cs (g, idx)).1
       ∧ same_outside b st st' ∧ dom (heap st') = dom (heap st)
       ∧ rng st' = rng st.
Proof.
  induction rs as [|r rs IH]; intros st g idx H Hrs Hcs Hlen.
  { exists st. cbn. split_and!; auto using same_outside_refl. }
  apply Forall_cons in Hrs as [Hr Hrs]. cbn [length] in Hlen.
  destruct (fill_row_loop nums b r cs st g idx H Hr Hcs ltac:(lia))
    as (st1 & Hrow & H1 & Hidx & Hout1 & Hdom1 & Hrng1).
  destruct (fill_row nums r cs (g, idx)) as [g1 idx1] eqn:E. cbn [fst snd] in *.
  destruct (IH st1 g1 idx1 H1 Hrs Hcs ltac:(lia)) as (st' & Hrun & H' & Hout & Hdom & Hrng).
  cbn [for_fold]. step Hrow.
  exists st'.
  change (fill_block nums (r :: rs) cs (g, idx))
    with (fill_block nums rs cs (fill_row nums r cs (g, idx))).
  rewrite E. split_and!; auto.
  - intros l Hl. etrans; [by apply Hout|by apply Hout1].
  - etrans; [apply Hdom|apply Hdom1].
  - congruence.
Qed.

(** One turn of the loop over k: a shuffle, then the nine assignments. *)
Lemma seed_block_step b k st g :
  shuffle_permutes shuffle → holds st b g → (k + 3 ≤ 9)%nat →
  ∃ st' nums,
    (nums <- shuffled shuffle (seqZ 1 9) ;;
     for_fold (seq k 3) (λ r idx,
       for_fold (seq k 3) (λ c idx,
         v <- index nums idx ;;
         set_item b r c v ;;
         ret (idx + 1)%nat) idx) 0%nat ;;
     ret tt) st = Ok (tt, st')
    ∧ nums ≡ₚ seqZ 1 9
    ∧ holds st' b (seed_block k nums g)
    ∧ same_outside b st st' ∧ dom (heap st') = dom (heap st).
Proof.
  intros Hp H Hk. unfold shuffled at 1. unfold bind at 1.
  destruct (shuffle Z (seqZ 1 9) (rng st)) as [nums g1] eqn:Hsh.
  assert (nums ≡ₚ seqZ 1 9) as HP.
  { specialize (Hp Z (seqZ 1 9) (rng st)). by rewrite Hsh in Hp. }
  set (st1 := {| heap := heap st; rng := g1; hist := hist st |}).
  assert (holds st1 b g) as H1 by done.
  assert (Forall (λ r, (r < 9)%nat) (seq k 3)) as Hrange.
  { apply Forall_forall. intros r Hr. apply elem_of_seq in Hr. lia. }
  destruct (fill_block_loop nums b (seq k 3) (seq k 3) st1 g 0%nat H1 Hrange Hrange)
    as (st' & Hrun & H' & Hout & Hdom & Hrng).
  { rewrite HP. done. }
  exists st', nums. step Hrun. split_and!; auto.
Qed.

End Seeding.

(** ** The generator *)

Section Generator.
Context {RNG : Type}.
Variable shuffle : ∀ A : Type, list A → RNG → list A * RNG.
Implicit Types (st : state RNG) (b : list nat) (g : list (list Z)).

Lemma fresh_same_outside_preserves b st0 st st' :
  (∀ l, l ∈ b → l ∉ dom (heap st0)) →
  preserves st0 st → same_outside b st st' → preserves st0 st'.
Proof.
  intros Hfr Hp Hout l row Hl. rewrite Hout; [by apply Hp|].
  intros Hin. apply (Hfr l Hin). apply elem_of_dom. by eexists.
Qed.

Lemma generate_full_board_spec fuel st :
  shuffle_permutes shuffle → (81 < fuel)%nat →
  ∃ b st' g' n1 n2 n3,
    generate_full_board shuffle fuel st = Ok (b, st')
    ∧ n1 ≡ₚ seqZ 1 9 ∧ n2 ≡ₚ seqZ 1 9 ∧ n3 ≡ₚ seqZ 1 9
    ∧ holds st' b g'
    ∧ (∀ l, l ∈ b → l ∉ dom (heap st))
    ∧ preserves st st'
    ∧ fills shuffle (seed_grid n1 n2 n3) g'
    ∧ (consistent (seed_grid n1 n2 n3) → consistent g')
    ∧ ((∃ s, solved s ∧ cleared_from s (seed_grid n1 n2 n3)) →
       full g' ∧ solved g').
Proof.
  intros Hp Hfuel. unfold generate_full_board.
  destruct (new_rows_spec 9 (replicate 9 0) st)
    as (b & st0 & Hnew & Hnd & Hfr & Hv0 & Hp0 & _ & _).
  step Hnew.
  assert (holds st0 b zero_grid) as H0.
  { split; [done|]. split; [done|]. apply grid9b_true. done. }
  match goal with |- context [for_each _ ?f] => set (body := f) end.
  cbn [for_each].
  destruct (seed_block_step shuffle b 0 st0 _ Hp H0 ltac:(lia))
    as (st1 & n1 & Hrun1 & HP1 & H1 & Hout1 & _).
  destruct (seed_block_step shuffle b 3 st1 _ Hp H1 ltac:(lia))
    as (st2 & n2 & Hrun2 & HP2 & H2 & Hout2 & _).
  destruct (seed_block_step shuffle b 6 st2 _ Hp H2 ltac:(lia))
    as (st3 & n3 & Hrun3 & HP3 & H3 & Hout3 & _).
  change (body 0%nat st0 = Ok (tt, st1)) in Hrun1.
  change (body 3%nat st1 = Ok (tt, st2)) in Hrun2.
  change (body 6%nat st2 = Ok (tt, st3)) in Hrun3.
  step Hrun1. step Hrun2. step Hrun3.
  assert (∃ g3, g3 = seed_grid n1 n2 n3 ∧ holds st3 b g3) as (g3 & Hg3 & H3').
  { eexists. split; [|exact H3]. unfold seed_grid. reflexivity. }
  clear H3. rename H3' into H3.
 
  assert (empties g3 < fuel)%nat as Hlt.
  { pose proof (empties_le g3). lia. }
 
  destruct (solve_board_spec shuffle fuel b st3 g3 H3 Hlt) as (res & st' & Hrun & Hpost).
  unfold ret at 1. unfold bind at 1.
  step Hrun.
  pose proof Hpost as (Hout & _ & _ & g' & H' & Hf & Hcons & _).
  exists b, st', g', n1, n2, n3. rewrite <- Hg3. clear Hg3.
  split; [done|]. split_and!; auto.
  - eapply fresh_same_outside_preserves; [done| |done].
    eapply fresh_same_outside_preserves; [done| |done].
    eapply fresh_same_outside_preserves; [done| |done].
    eapply fresh_same_outside_preserves; [done| |done]. done.
  - intros (s & Hs & Hcl).
    destruct (solve_cleared shuffle fuel st3 b g3 s Hp H3 Hs Hcl Hfuel)
      as (st'' & g'' & Hrun' & _ & H'' & Hfull & Hsolved & _).
    rewrite Hrun in Hrun'. simplify_eq.
    destruct H' as (_ & Hv' & _), H'' as (_ & Hv'' & _). by simplify_eq.
Qed.

End Generator.

(** ** Removal of cells *)

Section Removal.
Context {RNG : Type}.
Variable shuffle : ∀ A : Type, list A → RNG → list A * RNG.
Implicit Types (st : state RNG) (b p : list nat) (g : list (list Z)).

(** The body of the loop of [remove_cells]. *)
Local Abbreviation remove_body fuel puzzle removals :=
  (λ '(r, c) removed,
    if (removals <=? removed)%nat then ret None
    else
      backup <- get_item puzzle r c ;;
      set_item puzzle r c 0 ;;
      test <- copy_board puzzle ;;
      ok <- solve_board shuffle fuel test ;;
      if negb ok then set_item puzzle r c backup ;; ret (Some removed)
      else ret (Some (removed + 1)%nat))%nat.

Lemma holds_set_item st p gp r c v :
  holds st p gp → (r < 9)%nat → (c < 9)%nat →
  ∃ st', set_item p r c v st = Ok (tt, st')
         ∧ holds st' p (upd gp r c v) ∧ same_outside p st st'.
Proof.
  intros H Hr Hc. destruct (set_item_ok st p gp r c v H Hr Hc) as (h' & Hrun & Hv & Hout & _).
  eexists. split; [exact Hrun|]. split; [|exact Hout].
  destruct H as (Hnd & _ & Hg). split_and!; auto using grid9_upd.
Qed.

(** One turn of the loop that does not break: the cell is cleared and
    counted, or it is cleared and restored. *)
Lemma remove_body_spec g p removals fuel st gp r c removed :
  (81 < fuel)%nat → holds st p gp → cleared_from g gp →
  (r < 9)%nat → (c < 9)%nat → (removed < removals)%nat →
  ∃ removed1 st1 gp1,
    remove_body fuel p removals (r, c) removed st = Ok (Some removed1, st1)
    ∧ holds st1 p gp1 ∧ cleared_from g gp1 ∧ preserves_outside p st st1
    ∧ ((gp1 = gp ∧ removed1 = removed)
       ∨ (gp1 = upd gp r c 0 ∧ removed1 = S removed))
    ∧ (shuffle_permutes shuffle → solved g →
       gp1 = upd gp r c 0 ∧ removed1 = S removed).
Proof.
  intros Hfuel H Hcl Hr Hc Hlt. cbn beta iota.
  destruct (removals <=? removed)%nat eqn:Hle; [apply Nat.leb_le in Hle; lia|].
  pose proof H as (Hnd & Hv & Hg).
  step (get_item_ok st p gp r c H Hr Hc).
  destruct (holds_set_item st p gp r c 0 H Hr Hc) as (st1 & Hset & H1 & Hout1).
  step Hset.
  pose proof H1 as (_ & Hv1 & Hg1).
  destruct (copy_board_spec p st1 _ Hv1) as (t & st2 & Hcp & Hndt & Hfr & Hvt & Hp2 & _).
  step Hcp.
  assert (holds st2 t (upd gp r c 0)) as Ht by done.
  destruct (solve_board_spec shuffle fuel t st2 _ Ht) as (res & st3 & Hrun & Hpost).
  { pose proof (empties_le (upd gp r c 0)). lia. }
  step Hrun.
  destruct Hpost as (Hout3 & _ & _ & _ & _ & _ & _ & _ & Hsol).
  assert (preserves st1 st3) as Hp3.
  { intros l row Hl. rewrite Hout3; [by apply Hp2|].
    intros Hin. apply (Hfr l Hin). apply elem_of_dom. by eexists. }
  assert (holds st3 p (upd gp r c 0)) as H3.
  { split_and!; auto. eapply view_preserved; [exact Hv1|exact Hp3]. }
  assert (preserves_outside p st st3) as Hpo3.
  { intros l row Hl Hrow. apply Hp3. rewrite Hout1; done. }
  assert (cleared_from g (upd gp r c 0)) as Hcl1 by by apply cleared_from_clear.
  destruct res; cbn [negb].
  - exists (S removed), st3, (upd gp r c 0).
    replace (removed + 1)%nat with (S removed) by lia.
    split_and!; auto.
  - destruct (holds_set_item st3 p _ r c (cell gp r c) H3 Hr Hc)
      as (st4 & Hset4 & H4 & Hout4).
    rewrite upd_upd, upd_same in H4 by done.
    step Hset4. exists removed, st4, gp. split_and!; auto.
    + intros l row Hl Hrow. rewrite Hout4; auto.
    + intros Hperm Hs. specialize (Hsol Hperm).
      rewrite (cleared_from_solvable g) in Hsol; auto; [done|].
      pose proof (empties_le (upd gp r c 0)). lia.
Qed.

Lemma preserves_outside_trans p st1 st2 st3 :
  preserves_outside p st1 st2 → preserves_outside p st2 st3 →
  preserves_outside p st1 st3.
Proof. intros H1 H2 l row Hl H. auto. Qed.

(** The loop of [remove_cells] from the counter [removed] over the cells
    [cells].  When the full grid is solved no removal is rejected, and
    the loop clears cells until the target is met. *)
Lemma remove_loop g p removals fuel :
  (81 < fuel)%nat →
  ∀ cells st gp removed,
    Forall (λ rc, (rc.1 < 9)%nat ∧ (rc.2 < 9)%nat) cells →
    holds st p gp → cleared_from g gp →
    ∃ removed' st' gp',
      for_break cells (remove_body fuel p removals) removed st
        = Ok (removed', st')
      ∧ holds st' p gp' ∧ cleared_from g gp' ∧ preserves_outside p st st'
      ∧ (shuffle_permutes shuffle → solved g → NoDup cells →
         (∀ rc, rc ∈ cells → cell gp rc.1 rc.2 ≠ 0) →
         (removed ≤ removals)%nat →
         removed' = (removals `min` (removed + length cells))%nat
         ∧ (clues gp' + removed' = clues gp + removed)%nat).
Proof.
  intros Hfuel. induction cells as [|[r c] cells IH];
    intros st gp removed Hrange H Hcl.
  { exists removed, st, gp. split; [done|]. split_and!; auto.
    - by intros l row.
    - intros _ _ _ _ Hle. cbn [length]. lia. }
  apply Forall_cons in Hrange as [[Hr Hc] Hrange]. cbn [fst snd] in Hr, Hc.
  cbn [for_break].
  destruct (decide (removals ≤ removed)%nat) as [Hge|Hlt].
  { exists removed, st, gp. split.
    - unfold bind at 1. cbn beta iota.
      destruct (Nat.leb_spec removals removed) as [_|?]; [done|lia].
    - split_and!; auto; [by intros l row|].
      intros _ _ _ _ Hle. cbn [length]. lia. }
  destruct (remove_body_spec g p removals fuel st gp r c removed)
    as (removed1 & st1 & gp1 & Hbody & H1 & Hcl1 & Hpo1 & Hcases & Hsolved);
    auto; [lia|].
  destruct (IH st1 gp1 removed1 Hrange H1 Hcl1)
    as (removed' & st' & gp' & Hloop & H' & Hcl' & Hpo' & Hcount).
  exists removed', st', gp'. split.
  { rewrite (bind_ok _ _ _ _ _ Hbody). exact Hloop. }
  split_and!; auto; [by eapply preserves_outside_trans|].
  intros Hperm Hs Hnd Hnz Hle.
  destruct (Hsolved Hperm Hs) as [-> ->].
  apply NoDup_cons in Hnd as [Hnotin Hnd].
  pose proof H as (_ & _ & Hg).
  destruct Hcount as [-> Hclues]; auto; [|lia|].
  { intros [r' c'] Hin. cbn [fst snd]. rewrite cell_upd_ne; auto.
    - apply (Hnz (r', c')). by right.
    - intros [= -> ->]. done. }
  split; [cbn [length]; lia|].
  rewrite Hclues.
  rewrite (clues_upd gp r c); auto; [lia|].
  apply (Hnz (r, c)). by left.
Qed.

Lemma clues_full g : full g → clues g = 81%nat.
Proof.
  intros Hf. unfold clues.
  assert (∀ l : list (nat * nat), Forall (λ rc, cell g rc.1 rc.2 ≠ 0) l →
            filter (λ rc, cell g rc.1 rc.2 ≠ 0) l = l) as Hall.
  { induction 1 as [|x l Hx _ IH]; [done|].
    rewrite filter_cons_True by done. by rewrite IH. }
  rewrite Hall; [done|].
  apply Forall_forall. intros [r c] Hin.
  apply elem_of_all_cells in Hin as [Hr Hc]. by apply Hf.
Qed.

Lemma removals_of_le d : (removals_of d ≤ 55)%nat.
Proof. unfold removals_of. repeat case_match; lia. Qed.

(** [remove_cells] returns a new board: a copy of the board it is given
    with cells cleared; the objects of the caller are left as they were. *)
Lemma remove_cells_spec fuel b d st g :
  shuffle_permutes shuffle → (81 < fuel)%nat →
  view (heap st) b = Some g → grid9 g →
  ∃ p st' gp,
    remove_cells shuffle fuel b d st = Ok (p, st')
    ∧ holds st' p gp ∧ (∀ l, l ∈ p → l ∉ dom (heap st))
    ∧ preserves st st'
    ∧ cleared_from g gp
    ∧ (solved g → (clues gp = 81 - removals_of d)%nat).
Proof.
  intros Hperm Hfuel Hv Hg. unfold remove_cells.
  destruct (copy_board_spec b st g Hv) as (p & st1 & Hcp & Hnd & Hfr & Hvp & Hp1 & _).
  step Hcp.
  unfold shuffled at 1. unfold bind at 1.
  destruct (shuffle _ all_cells (rng st1)) as [cells g1] eqn:Hsh.
  assert (cells ≡ₚ all_cells) as HP.
  { specialize (Hperm _ all_cells (rng st1)). by rewrite Hsh in Hperm. }
  set (st2 := {| heap := heap st1; rng := g1; hist := hist st1 |}).
  assert (holds st2 p g) as H2 by done.
  destruct (remove_loop g p (removals_of d) fuel Hfuel cells st2 g 0%nat)
    as (removed' & st' & gp & Hloop & H' & Hcl & Hpo & Hcount);
    auto using cleared_from_refl.
  { apply Forall_forall. intros rc Hin. rewrite HP in Hin.
    by apply elem_of_all_cells in Hin. }
  step Hloop. exists p, st', gp. split; [done|]. split_and!; auto.
  - intros l row Hl. apply Hpo; [|by apply Hp1].
    intros Hin. apply (Hfr l Hin). apply elem_of_dom. by eexists.
  - intros Hs. destruct Hcount as [-> Hclues]; auto.
    + rewrite HP. apply NoDup_all_cells.
    + intros [r c] Hin. rewrite HP in Hin.
      apply elem_of_all_cells in Hin as [Hr Hc]. by apply solved_full.
    + lia.
    + rewrite HP in Hclues. rewrite (clues_full g) in Hclues by by apply solved_full.
      pose proof (removals_of_le d). change (length all_cells) with 81%nat in Hclues.
      lia.
Qed.

End Removal.

(** ** Puzzles *)

Section Puzzle.
Context {RNG : Type}.
Variable shuffle : ∀ A : Type, list A → RNG → list A * RNG.
Implicit Types (st : state RNG) (b p : list nat) (g : list (list Z)).

(** [solve_board] on a copy of a board cleared from a solved grid. *)
Lemma solve_copy_cleared fuel st p gp s :
  shuffle_permutes shuffle → (81 < fuel)%nat →
  holds st p gp → solved s → cleared_from s gp →
  ∃ st', (test <- copy_board p ;; solve_board shuffle fuel test) st
         = Ok (true, st').
Proof.
  intros Hperm Hfuel H Hs Hcl. pose proof H as (_ & Hv & Hg).
  destruct (copy_board_spec p st gp Hv) as (t & st1 & Hcp & Hnd & _ & Hvt & _).
  step Hcp.
  assert (holds st1 t gp) as Ht by done.
  destruct (solve_cleared shuffle fuel st1 t gp s Hperm Ht Hs Hcl Hfuel)
    as (st' & _ & Hrun & _).
  by exists st'.
Qed.

(** [generate_puzzle], provided that the seeded grid can be completed. *)
Lemma generate_puzzle_spec fuel d st :
  seeds_completable → shuffle_permutes shuffle → (81 < fuel)%nat →
  ∃ p f st' gp gf,
    generate_puzzle shuffle fuel d st = Ok ((p, f), st')
    ∧ holds st' p gp ∧ holds st' f gf
    ∧ full gf ∧ solved gf ∧ cleared_from gf gp
    ∧ (clues gp = 81 - removals_of d)%nat.
Proof.
  intros Hseed Hperm Hfuel. unfold generate_puzzle.
  destruct (generate_full_board_spec shuffle fuel st Hperm Hfuel)
    as (f & st1 & gf & n1 & n2 & n3 & Hgen & HP1 & HP2 & HP3 & Hf & _ & _ & _ & _ & Hsolved).
  destruct Hsolved as [Hfull Hs]; [by apply Hseed|].
  step Hgen. pose proof Hf as (Hndf & Hvf & Hgf).
  destruct (remove_cells_spec shuffle fuel f d st1 gf Hperm Hfuel Hvf Hgf)
    as (p & st' & gp & Hrem & Hp & _ & Hpres & Hcl & Hclues).
  step Hrem. exists p, f, st', gp, gf. split; [done|]. split_and!; auto.
  split_and!; auto. eapply view_preserved; [exact Hvf|exact Hpres].
Qed.

(** C8: [remove_cells] leaves the board it is given as it was: the rows
    of the board, and every other object of the caller, are the same
    after the call, and the board it returns is made of new rows. *)
Theorem remove_cells_keeps_full fuel b d st g :
  shuffle_permutes shuffle → (81 < fuel)%nat →
  view (heap st) b = Some g → grid9 g →
  ∃ p st', remove_cells shuffle fuel b d st = Ok (p, st')
           ∧ view (heap st') b = Some g
           ∧ preserves st st'
           ∧ (∀ l, l ∈ p → l ∉ b).
Proof.
  intros Hperm Hfuel Hv Hg.
  destruct (remove_cells_spec shuffle fuel b d st g Hperm Hfuel Hv Hg)
    as (p & st' & gp & Hrem & Hp & Hfr & Hpres & _).
  exists p, st'. split_and!; auto.
  - eapply view_preserved; [exact Hv|exact Hpres].
  - intros l Hl Hin. apply (Hfr l Hl). by eapply view_dom.
Qed.

Lemma removals_of_other (d : string) :
  d ≠ "easy"%string → d ≠ "medium"%string → removals_of d = 55%nat.
Proof.
  intros He Hm. unfold removals_of.
  apply String.eqb_neq in He, Hm. by rewrite He, Hm.
Qed.

Lemma remove_cells_other (d : string) fuel b st :
  d ≠ "easy"%string → d ≠ "medium"%string →
  remove_cells shuffle fuel b d st = remove_cells shuffle fuel b "hard" st.
Proof.
  intros He Hm. unfold remove_cells. by rewrite (removals_of_other d He Hm).
Qed.

End Puzzle.

(** * Further properties of the engine *)

(** ** The order of [find_empty] *)

Lemma all_cells_index :
  all_cells = (λ i, (i / 9, i mod 9)%nat) <$> seq 0 81.
Proof. reflexivity. Qed.

Lemma all_cells_lookup (r c : nat) :
  (r < 9)%nat → (c < 9)%nat → all_cells !! (9 * r + c)%nat = Some (r, c).
Proof.
  intros Hr Hc. rewrite all_cells_index, list_lookup_fmap, lookup_seq_lt by lia.
  cbn [fmap option_fmap option_map Nat.add]. f_equal.
  replace (9 * r + c)%nat with (c + r * 9)%nat by lia.
  rewrite Nat.div_add, Nat.Div0.mod_add by lia.
  rewrite Nat.div_small, Nat.mod_small by lia. f_equal.
Qed.

Lemma find_before {A} (p : A → bool) (l : list A) (x : A) :
  find p l = Some x →
  ∃ i, l !! i = Some x ∧ ∀ j y, (j < i)%nat → l !! j = Some y → p y = false.
Proof.
  induction l as [|a l IH]; [done|]. cbn [find].
  destruct (p a) eqn:Hp.
  - intros [= ->]. exists 0%nat. split; [done|]. intros; lia.
  - intros H. destruct (IH H) as (i & Hi & Hlt). exists (S i). split; [done|].
    intros [|j] y Hj Hy; cbn in Hy; [by simplify_eq|]. apply (Hlt j); [lia|done].
Qed.

(** The cell that [first_empty] answers is empty and no cell before it in
    row-major order is. *)
Lemma first_empty_first g r c :
  first_empty g = Some (r, c) →
  ∀ r' c', (r' < 9)%nat → (c' < 9)%nat →
    (r' < r ∨ (r' = r ∧ c' < c))%nat → cell g r' c' ≠ 0.
Proof.
  intros Hfe r' c' Hr' Hc' Hlt.
  apply first_empty_Some in Hfe as Hrc. destruct Hrc as (Hr & Hc & _).
  apply find_before in Hfe as (i & Hi & Hbefore).
  assert (i = 9 * r + c)%nat as ->.
  { eapply NoDup_lookup; [apply NoDup_all_cells|exact Hi|by apply all_cells_lookup]. }
  specialize (Hbefore (9 * r' + c')%nat (r', c') ltac:(lia) (all_cells_lookup r' c' Hr' Hc')).
  cbn in Hbefore. by apply Z.eqb_neq in Hbefore.
Qed.

Lemma holds_length {RNG} (st : state RNG) b g : holds st b g → length b = 9%nat.
Proof.
  intros (_ & Hv & Hg & _). apply view_Forall2, Forall2_length in Hv. lia.
Qed.

Section EngineFacts.
Context {RNG : Type}.
Variable shuffle : ∀ A : Type, list A → RNG → list A * RNG.
Implicit Types (st : state RNG) (b : list nat) (g : list (list Z)).

(** [find_empty] answers the first empty cell in row-major order, or
    [None] exactly when the 9x9 grid has no empty cell, and does not
    change the state. *)
Theorem find_empty_first st b g :
  holds st b g →
  ∃ o, find_empty b st = Ok (o, st)
       ∧ match o with
         | Some (r, c) =>
             (r < 9)%nat ∧ (c < 9)%nat ∧ cell g r c = 0
             ∧ ∀ r' c', (r' < 9)%nat → (c' < 9)%nat →
                 (r' < r ∨ (r' = r ∧ c' < c))%nat → cell g r' c' ≠ 0
         | None => full g
         end.
Proof.
  intros H. exists (first_empty g). split; [by apply find_empty_ok|].
  destruct (first_empty g) as [[r c]|] eqn:Hfe.
  - destruct (first_empty_Some g r c Hfe) as (Hr & Hc & Hz).
    split_and!; auto. by apply first_empty_first.
  - by apply first_empty_None.
Qed.

Lemma get_item_col_error st b g r c :
  holds st b g → (r < 9)%nat → (9 ≤ c)%nat →
  get_item b r c st = Err IndexError.
Proof.
  intros H Hr Hc.
  destruct (holds_lookup st b g r H Hr) as (l & row & Hl & Hh & _ & Hrow).
  unfold get_item, index. rewrite Hl. unfold bind, ret, load.
  rewrite Hh. by rewrite (lookup_ge_None_2 row c) by lia.
Qed.

(** On a 9x9 board [is_safe] raises [IndexError] for a row index of 9
    or more.  For a column index of 9 or more it answers [False] when
    the digit is in the first cell of the row, and raises [IndexError]
    otherwise. *)
Theorem is_safe_out_of_range st b g r c n :
  holds st b g →
  ((9 ≤ r)%nat → is_safe b r c n st = Err IndexError)
  ∧ ((r < 9)%nat → (9 ≤ c)%nat →
     is_safe b r c n st
     = if cell g r 0 =? n then Ok (false, st) else Err IndexError).
Proof.
  intros H. pose proof (holds_length st b g H) as Hlen. split.
  - intros Hr. unfold is_safe. cbn [seq for_return].
    unfold get_item at 1, index at 1.
    rewrite (lookup_ge_None_2 b r) by lia. done.
  - intros Hr Hc. unfold is_safe. cbn [seq for_return].
    rewrite ?bind_assoc.
    rewrite (bind_ok _ _ _ _ _ (get_item_ok st b g r 0 H Hr ltac:(lia))).
    destruct (cell g r 0 =? n); [done|].
    rewrite ?bind_assoc.
    by rewrite (bind_err _ _ _ _ (get_item_col_error st b g 0 c H ltac:(lia) Hc)).
Qed.

(** [is_safe] looks at the cell (row, col) itself: asked about the
    digit that the cell already holds, it answers [False]. *)
Theorem is_safe_rejects_own_digit st b g r c :
  holds st b g → (r < 9)%nat → (c < 9)%nat →
  is_safe b r c (cell g r c) st = Ok (false, st).
Proof.
  intros H Hr Hc. rewrite (is_safe_ok st b g r c _ H Hr Hc). do 2 f_equal.
  destruct (safe g r c (cell g r c)) eqn:Hs; [|done].
  by apply safe_self in Hs.
Qed.

(** On a 9x9 grid whose cells are 0-9 and whose non-zero cells satisfy
    row/column/subgrid uniqueness, [solve_board] returns true exactly
    when the grid can be completed to a solved grid; the grid it then
    leaves is solved and keeps every given digit. *)
Theorem solve_board_decides fuel st b g :
  shuffle_permutes shuffle → holds st b g → consistent g → digits g →
  (81 < fuel)%nat →
  ∃ res st' g',
    solve_board shuffle fuel b st = Ok (res, st')
    ∧ holds st' b g'
    ∧ (res = true ↔ ∃ s, solved s ∧ cleared_from s g)
    ∧ (res = true → solved g' ∧ cleared_from g' g).
Proof.
  intros Hp H Hcons Hdig Hfuel.
  destruct (solve_board_spec shuffle fuel b st g H) as (res & st' & Hrun & Hpost).
  { pose proof (empties_le g). lia. }
  pose proof Hpost as (_ & _ & _ & g' & H' & Hf & Hc & Hres & _).
  exists res, st', g'. split; [done|]. split; [done|].
  assert (res = true → solved g' ∧ cleared_from g' g) as Hsound.
  { intros ->. split.
    - apply solved_intro; [by apply Hc|].
      intros r c Hr Hc'. specialize (Hf r c Hr Hc'). specialize (Hres r c Hr Hc').
      case_decide as Hz.
      + destruct Hf as [?|Hcand]; [done|]. by apply (candidate_range shuffle).
      + rewrite Hf. specialize (Hdig r c Hr Hc'). lia.
    - intros r c Hr Hc'. specialize (Hf r c Hr Hc').
      case_decide; [by left|by right]. }
  split; [|done]. split.
  - intros Hr. exists g'. by apply Hsound.
  - intros (s & Hs & Hcl).
    destruct (solve_cleared shuffle fuel st b g s Hp H Hs Hcl Hfuel)
      as (st'' & g'' & Hrun' & _).
    rewrite Hrun in Hrun'. by simplify_eq.
Qed.

(** [solve_board] writes to empty cells only: in every heap it goes
    through, and in the end, each cell that was given holds its digit. *)
Theorem solve_board_keeps_clues fuel st b g :
  holds st b g → (81 < fuel)%nat →
  ∃ res st' new,
    solve_board shuffle fuel b st = Ok (res, st')
    ∧ hist st' = new ++ hist st
    ∧ Forall (λ h, ∃ gh, view h b = Some gh
                ∧ ∀ r c, (r < 9)%nat → (c < 9)%nat →
                    cell g r c ≠ 0 → cell gh r c = cell g r c) (heap st' :: new).
Proof.
  intros H Hfuel.
  destruct (solve_board_spec shuffle fuel b st g H) as (res & st' & Hrun & Hpost).
  { pose proof (empties_le g). lia. }
  destruct Hpost as (_ & _ & (new & Hh & Hnew) & g' & H' & Hf & _).
  assert (∀ gh, fills shuffle g gh →
            ∀ r c, (r < 9)%nat → (c < 9)%nat →
              cell g r c ≠ 0 → cell gh r c = cell g r c) as Hkeep.
  { intros gh Hfills r c Hr Hc Hnz. specialize (Hfills r c Hr Hc).
    by rewrite decide_False in Hfills. }
  exists res, st', new. split; [done|]. split; [done|].
  apply Forall_cons. split.
  - exists g'. split; [apply H'|]. by apply Hkeep.
  - eapply Forall_impl; [exact Hnew|].
    intros h (gh & Hv & _ & Hfills & _). exists gh. split; [done|]. by apply Hkeep.
Qed.

(** [solve_board] works in place: it creates no row object and leaves
    every row object that is not a row of the board as it was. *)
Theorem solve_board_in_place fuel st b g :
  holds st b g → (81 < fuel)%nat →
  ∃ res st',
    solve_board shuffle fuel b st = Ok (res, st')
    ∧ dom (heap st') = dom (heap st)
    ∧ ∀ l, l ∉ b → heap st' !! l = heap st !! l.
Proof.
  intros H Hfuel.
  destruct (solve_board_spec shuffle fuel b st g H) as (res & st' & Hrun & Hpost).
  { pose proof (empties_le g). lia. }
  destruct Hpost as (Hout & Hdom & _).
  by exists res, st'.
Qed.

End EngineFacts.

(** ** The depth of the recursion and the order of the candidates *)

Lemma existsb_ext_in {A} (f g : A → bool) (l : list A) :
  (∀ x, x ∈ l → f x = g x) → existsb f l = existsb g l.
Proof.
  induction l as [|a l IH]; intros H; [done|]. cbn [existsb].
  rewrite (H a) by left. rewrite IH; [done|]. intros x Hx. apply H. by right.
Qed.

(** The search does not depend on the bound of its depth once the bound
    exceeds the number of empty cells. *)
Lemma solvable_fuel n : ∀ m g,
  grid9 g → (empties g < n)%nat → (empties g < m)%nat →
  solvable n g = solvable m g.
Proof.
  induction n as [|n IH]; intros m g Hg Hn Hm; [lia|].
  destruct m as [|m]; [lia|]. cbn [solvable].
  destruct (first_empty g) as [[r c]|] eqn:Hfe; [|done].
  apply first_empty_Some in Hfe as (Hr & Hc & Hz).
  apply existsb_ext_in. intros d Hd. apply elem_of_seqZ in Hd.
  f_equal. pose proof (empties_upd g r c d Hg Hr Hc Hz ltac:(lia)).
  apply IH; [by apply grid9_upd|lia..].
Qed.

Section Depth.
Context {RNG : Type}.
Variable shuffle : ∀ A : Type, list A → RNG → list A * RNG.
Implicit Types (st : state RNG) (b : list nat) (g : list (list Z)).

(** Two bounds on the depth that both exceed the number of empty cells
    give the same run. *)
Lemma solve_board_fuel_eq fuel1 : ∀ fuel2 st b g,
  holds st b g → (empties g < fuel1)%nat → (empties g < fuel2)%nat →
  solve_board shuffle fuel1 b st = solve_board shuffle fuel2 b st.
Proof.
  induction fuel1 as [|fuel1 IH]; intros fuel2 st b g H Hlt1 Hlt2; [lia|].
  destruct fuel2 as [|fuel2]; [lia|].
  cbn [solve_board]. rewrite !(bind_ok _ _ _ _ _ (find_empty_ok st b g H)).
  destruct (first_empty g) as [[r c]|] eqn:Hfe; [|done].
  apply first_empty_Some in Hfe as Hrc. destruct Hrc as (Hr & Hc & Hz).
  destruct (shuffle Z (seqZ 1 9) (rng st)) as [nums g1] eqn:Hsh.
  set (st1 := {| heap := heap st; rng := g1; hist := hist st |}).
  assert (shuffled shuffle (seqZ 1 9) st = Ok (nums, st1)) as Hshuf.
  { unfold shuffled. by rewrite Hsh. }
  rewrite !(bind_ok _ _ _ _ _ Hshuf).
  assert (holds st1 b g) as Hst1 by done.
  set (body := λ fuel (n : Z),
    ok <- is_safe b r c n ;;
    if ok then
      set_item b r c n ;;
      done <- solve_board shuffle fuel b ;;
      if done then ret (Some true) else set_item b r c 0 ;; ret None
    else ret None).
  assert (∀ l st2, holds st2 b g →
            for_return l (body fuel1) st2 = for_return l (body fuel2) st2) as Hloop.
  { clear Hshuf Hst1 st1 Hsh nums g1 H. intros l.
    induction l as [|n l IHl]; intros st2 Hst2; [done|].
    cbn [for_return]. unfold body at 1 3. cbn beta.
    rewrite ?bind_assoc.
    rewrite !(bind_ok _ _ _ _ _ (is_safe_ok st2 b g r c n Hst2 Hr Hc)).
    destruct (safe g r c n) eqn:Hs; [|cbn; by apply IHl].
    assert (n ≠ 0) as Hn0 by (apply safe_self in Hs; [congruence|done..]).
    destruct (set_item_ok st2 b g r c n Hst2 Hr Hc) as (h3 & Hset & Hv3 & _).
    set (st3 := {| heap := h3; rng := rng st2; hist := h3 :: hist st2 |}) in *.
    assert (grid9 g) as Hg by apply Hst2.
    assert (holds st3 b (upd g r c n)) as H3.
    { split; [apply Hst2|]. split; [done|]. by apply grid9_upd. }
    pose proof (empties_upd g r c n Hg Hr Hc Hz Hn0) as He.
    rewrite ?bind_assoc. rewrite !(bind_ok _ _ _ _ _ Hset). cbn beta iota.
    destruct (solve_board_spec shuffle fuel2 b st3 _ H3 ltac:(lia))
      as (res & st4 & Hrec & Hpost).
    rewrite ?bind_assoc.
    rewrite (bind_ok _ _ _ _ _ Hrec).
    rewrite <- (IH fuel2 st3 b _ H3 ltac:(lia) ltac:(lia)) in Hrec.
    rewrite (bind_ok _ _ _ _ _ Hrec).
    destruct res; [done|]. cbn beta iota.
    destruct Hpost as (_ & _ & _ & g4 & H4 & _ & _ & -> & _).
    destruct (set_item_ok st4 b _ r c 0 H4 Hr Hc) as (h5 & Hset5 & Hv5 & _).
    rewrite upd_upd in Hv5 by done.
    assert (upd g r c 0 = g) as Hback.
    { rewrite <- Hz. by apply upd_same. }
    rewrite Hback in Hv5.
    rewrite ?bind_assoc. rewrite !(bind_ok _ _ _ _ _ Hset5). cbn beta iota.
    change (for_return l (body fuel1) {| heap := h5; rng := rng st4; hist := h5 :: hist st4 |}
            = for_return l (body fuel2) {| heap := h5; rng := rng st4; hist := h5 :: hist st4 |}).
    apply IHl. split; [apply Hst2|]. by split. }
  change (bind (for_return nums (body fuel1))
            (λ o, match o with Some v => ret v | None => ret false end) st1
          = bind (for_return nums (body fuel2))
            (λ o, match o with Some v => ret v | None => ret false end) st1).
  unfold bind. by rewrite (Hloop nums st1 Hst1).
Qed.

(** The recursion of [solve_board] is never deeper than the number of
    empty cells plus one: with that bound on the depth the call returns
    an answer, and with any greater bound it returns the same answer in
    the same state. *)
Theorem solve_board_depth fuel st b g :
  holds st b g → (empties g < fuel)%nat →
  ∃ res st',
    solve_board shuffle (S (empties g)) b st = Ok (res, st')
    ∧ solve_board shuffle fuel b st = Ok (res, st').
Proof.
  intros H Hfuel.
  destruct (solve_board_spec shuffle (S (empties g)) b st g H ltac:(lia))
    as (res & st' & Hrun & _).
  exists res, st'. split; [done|].
  by rewrite <- (solve_board_fuel_eq (S (empties g)) fuel st b g H ltac:(lia) Hfuel).
Qed.

End Depth.

(** The answer of [solve_board] does not depend on the order in which
    [random.shuffle] puts the candidates: two runs on the same 9x9 grid,
    with any two generators, return the same boolean. *)
Theorem solve_board_answer_fixed {RNG1 RNG2 : Type}
    (shuffle1 : ∀ A : Type, list A → RNG1 → list A * RNG1)
    (shuffle2 : ∀ A : Type, list A → RNG2 → list A * RNG2)
    fuel1 fuel2 (st1 : state RNG1) (st2 : state RNG2) b1 b2 g :
  shuffle_permutes shuffle1 → shuffle_permutes shuffle2 →
  holds st1 b1 g → holds st2 b2 g → (81 < fuel1)%nat → (81 < fuel2)%nat →
  ∃ res st1' st2',
    solve_board shuffle1 fuel1 b1 st1 = Ok (res, st1')
    ∧ solve_board shuffle2 fuel2 b2 st2 = Ok (res, st2').
Proof.
  intros Hp1 Hp2 H1 H2 Hf1 Hf2. pose proof (empties_le g) as Hle.
  destruct (solve_board_spec shuffle1 fuel1 b1 st1 g H1 ltac:(lia))
    as (res1 & st1' & Hrun1 & Hpost1).
  destruct (solve_board_spec shuffle2 fuel2 b2 st2 g H2 ltac:(lia))
    as (res2 & st2' & Hrun2 & Hpost2).
  destruct Hpost1 as (_ & _ & _ & _ & _ & _ & _ & _ & Hs1).
  destruct Hpost2 as (_ & _ & _ & _ & _ & _ & _ & _ & Hs2).
  exists res1, st1', st2'. split; [done|].
  rewrite Hrun2. do 2 f_equal. rewrite (Hs1 Hp1), (Hs2 Hp2).
  symmetry. apply solvable_fuel; [apply H1|lia..].
Qed.

(** ** The seeded grid *)

Lemma cell_seed_grid n1 n2 n3 r c :
  length n1 = 9%nat → length n2 = 9%nat → length n3 = 9%nat →
  (r < 9)%nat → (c < 9)%nat →
  cell (seed_grid n1 n2 n3) r c = seed_cell n1 n2 n3 r c.
Proof.
  intros H1 H2 H3 Hr Hc.
  do 10 (destruct n1 as [|? n1]; try done).
  do 10 (destruct n2 as [|? n2]; try done).
  do 10 (destruct n3 as [|? n3]; try done).
  do 9 (destruct r as [|r]; [do 9 (destruct c as [|c]; [reflexivity|]); lia|]).
  lia.
Qed.

Lemma grid9_seed_grid n1 n2 n3 : grid9 (seed_grid n1 n2 n3).
Proof.
  unfold seed_grid, seed_block, fill_block, fill_row. cbn [seq foldl fst snd].
  repeat apply grid9_upd. apply grid9b_true. reflexivity.
Qed.

Lemma perm_digits_facts (n : list Z) :
  n ≡ₚ seqZ 1 9 → length n = 9%nat ∧ NoDup n ∧ ∀ x, x ∈ n → 1 ≤ x ≤ 9.
Proof.
  intros HP. split_and!.
  - by rewrite HP.
  - rewrite HP. apply NoDup_digits.
  - intros x Hx. rewrite HP in Hx. by apply elem_of_digits.
Qed.

Lemma seed_cell_nonzero n1 n2 n3 r c :
  seed_cell n1 n2 n3 r c ≠ 0 →
  (r / 3 = c / 3)%nat
  ∧ ∃ n, [n1; n2; n3] !! (r / 3)%nat = Some n
         ∧ n !! (3 * (r mod 3) + c mod 3)%nat = Some (seed_cell n1 n2 n3 r c).
Proof.
  unfold seed_cell. destruct (Nat.eqb_spec (r / 3) (c / 3)) as [Heq|]; [|done].
  intros Hnz. split; [done|].
  destruct ([n1; n2; n3] !! (r / 3)%nat) as [n|] eqn:Hn; [|done].
  exists n. split; [done|]. cbn [default from_option id] in *.
  destruct (n !! (3 * (r mod 3) + c mod 3)%nat) as [x|] eqn:Hx;
    cbn [default from_option id] in *; [reflexivity|congruence].
Qed.

(** The seeded grid has no digit twice in a row, a column or a subgrid. *)
Lemma consistent_seed_grid n1 n2 n3 :
  n1 ≡ₚ seqZ 1 9 → n2 ≡ₚ seqZ 1 9 → n3 ≡ₚ seqZ 1 9 →
  consistent (seed_grid n1 n2 n3).
Proof.
  intros HP1 HP2 HP3.
  destruct (perm_digits_facts n1 HP1) as (L1 & ND1 & _).
  destruct (perm_digits_facts n2 HP2) as (L2 & ND2 & _).
  destruct (perm_digits_facts n3 HP3) as (L3 & ND3 & _).
  intros r c r' c' Hr Hc Hr' Hc'. rewrite !cell_seed_grid by done.
  intros Hnz Heq Hu. assert (seed_cell n1 n2 n3 r' c' ≠ 0) as Hnz' by congruence.
  apply seed_cell_nonzero in Hnz as (Hb & n & Hn & Hi).
  apply seed_cell_nonzero in Hnz' as (Hb' & n' & Hn' & Hi').
  assert (r / 3 = r' / 3)%nat as Hband.
  { destruct Hu as [Hu|[Hu|[Hu _]]]; cbn [fst snd] in Hu; congruence. }
  rewrite <- Hband in Hn'. assert (n' = n) as -> by congruence.
  assert (NoDup n) as Hnd.
  { destruct (r / 3)%nat as [|[|[|?]]]; cbn in Hn; by simplify_eq. }
  rewrite <- Heq in Hi'.
  pose proof (NoDup_lookup n _ _ _ Hnd Hi Hi') as Hidx.
  pose proof (Nat.div_mod_eq r 3). pose proof (Nat.div_mod_eq c 3).
  pose proof (Nat.div_mod_eq r' 3). pose proof (Nat.div_mod_eq c' 3).
  pose proof (Nat.mod_upper_bound r 3). pose proof (Nat.mod_upper_bound c 3).
  pose proof (Nat.mod_upper_bound r' 3). pose proof (Nat.mod_upper_bound c' 3).
  generalize dependent (r / 3)%nat. generalize dependent (r mod 3)%nat.
  generalize dependent (c / 3)%nat. generalize dependent (c mod 3)%nat.
  generalize dependent (r' / 3)%nat. generalize dependent (r' mod 3)%nat.
  generalize dependent (c' / 3)%nat. generalize dependent (c' mod 3)%nat.
  intros. f_equal; lia.
Qed.

(** The diagonal subgrids of the seeded grid are the three shuffles. *)
Lemma box_of_seed_grid n1 n2 n3 :
  length n1 = 9%nat → length n2 = 9%nat → length n3 = 9%nat →
  box_of (seed_grid n1 n2 n3) 0 = n1
  ∧ box_of (seed_grid n1 n2 n3) 4 = n2
  ∧ box_of (seed_grid n1 n2 n3) 8 = n3.
Proof.
  intros H1 H2 H3.
  do 10 (destruct n1 as [|? n1]; try done).
  do 10 (destruct n2 as [|? n2]; try done).
  do 10 (destruct n3 as [|? n3]; try done).
Qed.

Lemma box_of_fills {RNG} (shuffle : ∀ A : Type, list A → RNG → list A * RNG)
    (g g' : list (list Z)) (k : nat) :
  (k < 9)%nat → fills shuffle g g' → Forall (λ x, x ≠ 0) (box_of g k) →
  box_of g' k = box_of g k.
Proof.
  intros Hk Hf Hnz. unfold box_of in *. apply list_eq_Forall2.
  apply Forall2_fmap, Forall_Forall2_diag, Forall_forall. intros [r c] Hin.
  destruct (box_cells_facts k Hk) as [_ Hbox].
  rewrite Forall_forall in Hbox. destruct (Hbox _ Hin) as (Hr & Hc & _).
  cbn [fst snd] in *. specialize (Hf r c Hr Hc).
  rewrite Forall_fmap, Forall_forall in Hnz. specialize (Hnz _ Hin). cbn in Hnz.
  by rewrite decide_False in Hf.
Qed.

Section Boards.
Context {RNG : Type}.
Variable shuffle : ∀ A : Type, list A → RNG → list A * RNG.
Implicit Types (st : state RNG) (b p : list nat) (g : list (list Z)).

(** What [generate_full_board] returns, whether or not the search
    completed the grid. *)
Lemma generate_full_board_run fuel st :
  shuffle_permutes shuffle → (81 < fuel)%nat →
  ∃ b st' g',
    generate_full_board shuffle fuel st = Ok (b, st')
    ∧ holds st' b g'
    ∧ (∀ l, l ∈ b → l ∉ dom (heap st))
    ∧ preserves st st'
    ∧ consistent g' ∧ digits g'
    ∧ each_digit_once (box_of g' 0) ∧ each_digit_once (box_of g' 4)
    ∧ each_digit_once (box_of g' 8)
    ∧ (full g' → solved g').
Proof.
  intros Hp Hfuel.
  destruct (generate_full_board_spec shuffle fuel st Hp Hfuel)
    as (b & st' & g' & n1 & n2 & n3 & Hgen & HP1 & HP2 & HP3 & H' & Hfr & Hpres
        & Hf & Hcons & _).
  destruct (perm_digits_facts n1 HP1) as (L1 & _ & R1).
  destruct (perm_digits_facts n2 HP2) as (L2 & _ & R2).
  destruct (perm_digits_facts n3 HP3) as (L3 & _ & R3).
  destruct (box_of_seed_grid n1 n2 n3 L1 L2 L3) as (B0 & B4 & B8).
  assert (consistent g') as Hcons' by by apply Hcons, consistent_seed_grid.
  assert (digits g') as Hdig.
  { intros r c Hr Hc. specialize (Hf r c Hr Hc). case_decide as Hz.
    - destruct Hf as [->|Hcand]; [lia|].
      pose proof (candidate_range shuffle _ Hp Hcand). lia.
    - rewrite Hf. rewrite cell_seed_grid in * by done.
      apply seed_cell_nonzero in Hz as (_ & n & Hn & Hi).
      apply list_elem_of_lookup_2 in Hi.
      destruct (r / 3)%nat as [|[|[|?]]]; cbn in Hn; simplify_eq;
        [apply R1 in Hi|apply R2 in Hi|apply R3 in Hi]; lia. }
  assert (∀ n, (∀ x, x ∈ n → 1 ≤ x ≤ 9) → Forall (λ x, x ≠ 0) n) as Hnz.
  { intros n Hn. apply Forall_forall. intros x Hx. apply Hn in Hx. lia. }
  exists b, st', g'. split; [done|]. split_and!; auto.
  - rewrite (box_of_fills shuffle _ g' 0 ltac:(lia) Hf); rewrite B0; auto.
    by apply perm_each_digit_once.
  - rewrite (box_of_fills shuffle _ g' 4 ltac:(lia) Hf); rewrite B4; auto.
    by apply perm_each_digit_once.
  - rewrite (box_of_fills shuffle _ g' 8 ltac:(lia) Hf); rewrite B8; auto.
    by apply perm_each_digit_once.
  - intros Hfull. apply solved_intro; [done|].
    intros r c Hr Hc. specialize (Hdig r c Hr Hc). specialize (Hfull r c Hr Hc). lia.
Qed.

(** [generate_full_board] never raises.  It returns a board of nine new
    row objects, leaves the objects of the caller as they were, and the
    grid of the board has cells 0-9, no digit twice in a row, a column
    or a subgrid, and each digit 1-9 once in each diagonal subgrid: if
    it has no empty cell, it is a solved grid. *)
Theorem generate_full_board_seeded fuel st :
  shuffle_permutes shuffle → (81 < fuel)%nat →
  ∃ b st' g',
    generate_full_board shuffle fuel st = Ok (b, st')
    ∧ holds st' b g'
    ∧ (∀ l, l ∈ b → l ∉ dom (heap st))
    ∧ preserves st st'
    ∧ consistent g' ∧ digits g'
    ∧ each_digit_once (box_of g' 0) ∧ each_digit_once (box_of g' 4)
    ∧ each_digit_once (box_of g' 8)
    ∧ (full g' → solved g').
Proof. apply generate_full_board_run. Qed.

End Boards.

(** ** The number of cells that [remove_cells] clears *)

Lemma clues_clear g r c :
  grid9 g → (r < 9)%nat → (c < 9)%nat → (clues g ≤ S (clues (upd g r c 0)))%nat.
Proof.
  intros Hg Hr Hc. destruct (decide (cell g r c = 0)) as [Hz|Hnz].
  - assert (upd g r c 0 = g) as -> by (rewrite <- Hz; by apply upd_same). lia.
  - rewrite (clues_upd g r c) by done. lia.
Qed.

Section Counting.
Context {RNG : Type}.
Variable shuffle : ∀ A : Type, list A → RNG → list A * RNG.
Implicit Types (st : state RNG) (b p : list nat) (g : list (list Z)).

Local Abbreviation remove_body fuel puzzle removals :=
  (λ '(r, c) removed,
    if (removals <=? removed)%nat then ret None
    else
      backup <- get_item puzzle r c ;;
      set_item puzzle r c 0 ;;
      test <- copy_board puzzle ;;
      ok <- solve_board shuffle fuel test ;;
      if negb ok then set_item puzzle r c backup ;; ret (Some removed)
      else ret (Some (removed + 1)%nat))%nat.

(** The loop of [remove_cells] clears at most as many cells as the
    counter goes up, and the counter stops at the target. *)
Lemma remove_loop_bound g p removals fuel :
  (81 < fuel)%nat →
  ∀ cells st gp removed,
    Forall (λ rc, (rc.1 < 9)%nat ∧ (rc.2 < 9)%nat) cells →
    holds st p gp → cleared_from g gp →
    ∃ removed' st' gp',
      for_break cells (remove_body fuel p removals) removed st
        = Ok (removed', st')
      ∧ holds st' p gp'
      ∧ ((removed ≤ removals)%nat → (removed' ≤ removals)%nat)
      ∧ (clues gp + removed ≤ clues gp' + removed')%nat.
Proof.
  intros Hfuel. induction cells as [|[r c] cells IH];
    intros st gp removed Hrange H Hcl.
  { exists removed, st, gp. split; [done|]. split_and!; auto. }
  apply Forall_cons in Hrange as [[Hr Hc] Hrange]. cbn [fst snd] in Hr, Hc.
  cbn [for_break].
  destruct (decide (removals ≤ removed)%nat) as [Hge|Hlt].
  { exists removed, st, gp. split.
    - unfold bind at 1. cbn beta iota.
      destruct (Nat.leb_spec removals removed) as [_|?]; [done|lia].
    - split_and!; auto. }
  destruct (remove_body_spec shuffle g p removals fuel st gp r c removed)
    as (removed1 & st1 & gp1 & Hbody & H1 & Hcl1 & _ & Hcases & _);
    auto; [lia|].
  destruct (IH st1 gp1 removed1 Hrange H1 Hcl1)
    as (removed' & st' & gp' & Hloop & H' & Hle & Hclues).
  exists removed', st', gp'. split.
  { rewrite (bind_ok _ _ _ _ _ Hbody). exact Hloop. }
  split; [done|].
  pose proof (clues_clear gp r c ltac:(apply H) Hr Hc) as Hc1.
  destruct Hcases as [[-> ->]|[-> ->]]; split; intros; lia.
Qed.

(** What [remove_cells] returns, on any 9x9 board. *)
Lemma remove_cells_run fuel b d st g :
  shuffle_permutes shuffle → (81 < fuel)%nat →
  view (heap st) b = Some g → grid9 g →
  ∃ p st' gp,
    remove_cells shuffle fuel b d st = Ok (p, st')
    ∧ holds st' p gp ∧ (∀ l, l ∈ p → l ∉ dom (heap st))
    ∧ preserves st st'
    ∧ cleared_from g gp
    ∧ (clues g ≤ clues gp + removals_of d)%nat.
Proof.
  intros Hperm Hfuel Hv Hg.
  destruct (remove_cells_spec shuffle fuel b d st g Hperm Hfuel Hv Hg)
    as (p & st' & gp & Hrem & Hp & Hfr & Hpres & Hcl & _).
  exists p, st', gp. split; [done|]. split_and!; auto.
  (* the same run, counted *)
  revert Hrem. unfold remove_cells.
  destruct (copy_board_spec b st g Hv) as (p1 & st1 & Hcp & Hnd & _ & Hvp & _).
  step Hcp.
  unfold shuffled at 1. unfold bind at 1.
  destruct (shuffle _ all_cells (rng st1)) as [cells g1] eqn:Hsh.
  assert (cells ≡ₚ all_cells) as HP.
  { specialize (Hperm _ all_cells (rng st1)). by rewrite Hsh in Hperm. }
  set (st2 := {| heap := heap st1; rng := g1; hist := hist st1 |}).
  assert (holds st2 p1 g) as H2 by done.
  destruct (remove_loop_bound g p1 (removals_of d) fuel Hfuel cells st2 g 0%nat)
    as (removed' & st3 & gp3 & Hloop & H3 & Hle & Hclues);
    auto using cleared_from_refl.
  { apply Forall_forall. intros rc Hin. rewrite HP in Hin.
    by apply elem_of_all_cells in Hin. }
  step Hloop. intros [= -> ->].
  destruct Hp as (_ & Hvp' & _), H3 as (_ & Hv3 & _). simplify_eq.
  specialize (Hle ltac:(lia)). lia.
Qed.

(** [remove_cells] never raises on a 9x9 board, whatever the board
    holds.  The puzzle it returns is made of new row objects; each of
    its cells is empty or holds what the board holds there; and it has
    at most 35, 45 or 55 non-zero cells fewer than the board. *)
Theorem remove_cells_bounded fuel b d st g :
  shuffle_permutes shuffle → (81 < fuel)%nat →
  view (heap st) b = Some g → grid9 g →
  ∃ p st' gp,
    remove_cells shuffle fuel b d st = Ok (p, st')
    ∧ holds st' p gp ∧ (∀ l, l ∈ p → l ∉ dom (heap st))
    ∧ cleared_from g gp
    ∧ (clues g ≤ clues gp + removals_of d)%nat
    ∧ (removals_of d = 35 ∨ removals_of d = 45 ∨ removals_of d = 55)%nat.
Proof.
  intros Hperm Hfuel Hv Hg.
  destruct (remove_cells_run fuel b d st g Hperm Hfuel Hv Hg)
    as (p & st' & gp & Hrem & Hp & Hfr & _ & Hcl & Hclues).
  exists p, st', gp. split_and!; auto.
  unfold removals_of. repeat case_match; auto.
Qed.

(** On a board that holds a solved grid [remove_cells] rejects no
    removal: the puzzle has exactly 81 - 35, 81 - 45 or 81 - 55 non-zero
    cells, each equal to the cell of the board, and [solve_board]
    returns true on a copy of it. *)
Theorem remove_cells_on_solution fuel b d st g :
  shuffle_permutes shuffle → (81 < fuel)%nat →
  view (heap st) b = Some g → grid9 g → solved g →
  ∃ p st' gp,
    remove_cells shuffle fuel b d st = Ok (p, st')
    ∧ holds st' p gp
    ∧ cleared_from g gp
    ∧ (clues gp = 81 - removals_of d)%nat
    ∧ ∃ st'', (test <- copy_board p ;; solve_board shuffle fuel test) st'
              = Ok (true, st'').
Proof.
  intros Hperm Hfuel Hv Hg Hs.
  destruct (remove_cells_spec shuffle fuel b d st g Hperm Hfuel Hv Hg)
    as (p & st' & gp & Hrem & Hp & _ & _ & Hcl & Hclues).
  exists p, st', gp. split_and!; auto.
  by apply (solve_copy_cleared shuffle fuel st' p gp g).
Qed.

End Counting.

(** ** Puzzles and the endpoint *)

Section Endpoint.
Context {RNG : Type}.
Variable shuffle : ∀ A : Type, list A → RNG → list A * RNG.
Variable lower : string → string.
Implicit Types (st : state RNG) (b p : list nat) (g : list (list Z)).

(** What [generate_puzzle] returns, whether or not the search completed
    the second board. *)
Lemma generate_puzzle_run fuel d st :
  shuffle_permutes shuffle → (81 < fuel)%nat →
  ∃ p f st' gp gf,
    generate_puzzle shuffle fuel d st = Ok ((p, f), st')
    ∧ holds st' p gp ∧ holds st' f gf
    ∧ (∀ l, l ∈ p → l ∉ f)
    ∧ preserves st st'
    ∧ cleared_from gf gp
    ∧ (clues gf ≤ clues gp + removals_of d)%nat
    ∧ consistent gf ∧ digits gf.
Proof.
  intros Hperm Hfuel. unfold generate_puzzle.
  destruct (generate_full_board_run shuffle fuel st Hperm Hfuel)
    as (f & st1 & gf & Hgen & Hf & _ & Hpres1 & Hcons & Hdig & _).
  step Hgen. pose proof Hf as (Hndf & Hvf & Hgf).
  destruct (remove_cells_run shuffle fuel f d st1 gf Hperm Hfuel Hvf Hgf)
    as (p & st' & gp & Hrem & Hp & Hfr & Hpres & Hcl & Hclues).
  step Hrem. exists p, f, st', gp, gf. split; [done|]. split_and!; auto.
  - split_and!; auto. eapply view_preserved; [exact Hvf|exact Hpres].
  - intros l Hl Hin. apply (Hfr l Hl). by eapply view_dom.
  - by eapply preserves_trans.
Qed.

(** [generate_puzzle] never raises.  It returns two boards that share no
    row object; each cell of the first is empty or equal to the cell of
    the second; the first has at most 35, 45 or 55 non-zero cells fewer
    than the second; and the second has no digit twice in a row, a
    column or a subgrid. *)
Theorem generate_puzzle_pair fuel d st :
  shuffle_permutes shuffle → (81 < fuel)%nat →
  ∃ p f st' gp gf,
    generate_puzzle shuffle fuel d st = Ok ((p, f), st')
    ∧ holds st' p gp ∧ holds st' f gf
    ∧ (∀ l, l ∈ p → l ∉ f)
    ∧ cleared_from gf gp
    ∧ (clues gf ≤ clues gp + removals_of d)%nat
    ∧ consistent gf.
Proof.
  intros Hperm Hfuel.
  destruct (generate_puzzle_run fuel d st Hperm Hfuel)
    as (p & f & st' & gp & gf & Hrun & Hp & Hf & Hdisj & _ & Hcl & Hclues & Hcons & _).
  exists p, f, st', gp, gf. split_and!; auto.
Qed.

(** [new_game] checks the difficulty before anything else.  When the
    lower-cased difficulty is not "easy", "medium" or "hard" it raises
    [HTTPException] 400 and has changed nothing: no board is made and the
    random generator is not used.  Otherwise it returns the two boards of
    [generate_puzzle] for the lower-cased difficulty, and raises
    nothing. *)
Theorem new_game_checked fuel payload st :
  shuffle_permutes shuffle → (81 < fuel)%nat →
  ∃ r st',
    new_game shuffle lower fuel payload st = Ok (r, st')
    ∧ match r with
      | HTTPException code detail =>
          code = 400%nat ∧ detail = "Invalid difficulty"%string ∧ st' = st
          ∧ lower (difficulty payload) ∉ ["easy"; "medium"; "hard"]%string
      | Returns resp =>
          lower (difficulty payload) ∈ ["easy"; "medium"; "hard"]%string
          ∧ generate_puzzle shuffle fuel (lower (difficulty payload)) st
            = Ok ((puzzle resp, solution resp), st')
          ∧ ∃ gp gf,
              holds st' (puzzle resp) gp ∧ holds st' (solution resp) gf
              ∧ cleared_from gf gp
              ∧ (clues gf ≤ clues gp + removals_of (lower (difficulty payload)))%nat
      end.
Proof.
  intros Hperm Hfuel. unfold new_game. cbv zeta.
  set (d := lower (difficulty payload)).
  destruct (existsb (String.eqb d) ["easy"; "medium"; "hard"]%string) eqn:Hex;
    cbn [negb].
  - apply existsb_exists in Hex as (x & Hin & Heq).
    apply String.eqb_eq in Heq as <-. apply list_elem_of_In in Hin.
    destruct (generate_puzzle_run fuel d st Hperm Hfuel)
      as (p & f & st' & gp & gf & Hrun & Hp & Hf & _ & _ & Hcl & Hclues & _).
    exists (Returns {| puzzle := p; solution := f |}), st'. split.
    + by rewrite (bind_ok _ _ _ _ _ Hrun).
    + cbn [puzzle solution]. split_and!; auto. by exists gp, gf.
  - exists (HTTPException 400 "Invalid difficulty"), st. split; [done|].
    split_and!; auto. intros Hin. apply list_elem_of_In in Hin.
    assert (existsb (String.eqb d) ["easy"; "medium"; "hard"]%string = true) as Ht.
    { apply existsb_exists. exists d. split; [done|]. apply String.eqb_refl. }
    congruence.
Qed.

End Endpoint.

(** ** Difficulties other than "easy" and "medium" *)

Section Difficulty.
Context {RNG : Type}.
Variable shuffle : ∀ A : Type, list A → RNG → list A * RNG.
Implicit Types (st : state RNG) (b p : list nat) (g : list (list Z)).

(** C9: on a difficulty that is neither "easy" nor "medium", whatever
    the string, [remove_cells] raises nothing and returns what it
    returns on "hard", in the same state.  Its removal target is 55: the
    puzzle has at most 55 non-zero cells fewer than the board, and
    exactly 81 - 55 = 26 non-zero cells when the board holds a solved
    grid. *)
Theorem unknown_difficulty_is_hard fuel b (d : string) st g :
  d ≠ "easy"%string → d ≠ "medium"%string →
  shuffle_permutes shuffle → (81 < fuel)%nat →
  view (heap st) b = Some g → grid9 g →
  ∃ p st' gp,
    remove_cells shuffle fuel b d st = Ok (p, st')
    ∧ remove_cells shuffle fuel b "hard" st = Ok (p, st')
    ∧ holds st' p gp ∧ cleared_from g gp
    ∧ (clues g ≤ clues gp + 55)%nat
    ∧ (solved g → clues gp = 26%nat)
    ∧ ∀ fuel' b' st0,
        remove_cells shuffle fuel' b' d st0
        = remove_cells shuffle fuel' b' "hard" st0.
Proof.
  intros He Hm Hperm Hfuel Hv Hg.
  pose proof (removals_of_other d He Hm) as Hd.
  destruct (remove_cells_run shuffle fuel b d st g Hperm Hfuel Hv Hg)
    as (p & st' & gp & Hrem & Hp & _ & _ & Hcl & Hclues).
  destruct (remove_cells_spec shuffle fuel b d st g Hperm Hfuel Hv Hg)
    as (p2 & st2 & gp2 & Hrem2 & Hp2 & _ & _ & _ & Hexact).
  rewrite Hrem in Hrem2. injection Hrem2 as <- <-.
  assert (gp2 = gp) as ->.
  { destruct Hp as (_ & Hvp & _), Hp2 as (_ & Hvp2 & _). congruence. }
  rewrite Hd in Hclues, Hexact.
  exists p, st', gp. split_and!; auto.
  - by rewrite <- (remove_cells_other shuffle d fuel b st He Hm).
  - intros fuel' b' st0. by apply remove_cells_other.
Qed.

End Difficulty.

(** ** The claims on concrete inputs *)

Lemma solve_board_completes_cleared_witness :
  ∃ st' g',
    solve_board demo_shuffle 82 demo_board (demo_state (heap_of demo_puzzle))
    = Ok (true, st')
    ∧ holds st' demo_board g' ∧ full g' ∧ solved g'.
Proof.
  apply (solve_board_completes_cleared demo_shuffle 82 _ _ demo_puzzle demo_solution).
  - apply demo_shuffle_permutes.
  - by apply heap_of_holds.
  - apply solvedb_true. by vm_compute.
  - apply cleared_fromb_true. by vm_compute.
  - lia.
Defined.

Lemma solve_board_false_restores_witness :
  ∃ st',
    solve_board demo_shuffle 82 demo_board (demo_state (heap_of demo_stuck))
    = Ok (false, st')
    ∧ length (hist st') = 4%nat
    ∧ heap st' = heap_of demo_stuck
    ∧ holds st' demo_board demo_stuck.
Proof.
  destruct (solve_board_false_restores demo_shuffle 82
              (demo_state (heap_of demo_stuck)) demo_board demo_stuck)
    as (res & st' & Hrun & Hrestored).
  - by apply heap_of_holds.
  - lia.
  - assert (∃ st'',
      solve_board demo_shuffle 82 demo_board (demo_state (heap_of demo_stuck))
      = Ok (false, st'') ∧ length (hist st'') = 4%nat) as (st'' & Hfalse & Hlen).
    { eexists. split; vm_compute; reflexivity. }
    rewrite Hrun in Hfalse. injection Hfalse as Hres Hst. subst res st''.
    exists st'. split; [exact Hrun|]. split; [exact Hlen|]. by apply Hrestored.
Defined.

Lemma is_safe_spec_witness :
  ∃ v, is_safe demo_board 0 0 1 (demo_state (heap_of demo_puzzle))
       = Ok (v, demo_state (heap_of demo_puzzle))
       ∧ (v = false ↔ in_row demo_puzzle 0 1 ∨ in_col demo_puzzle 0 1
                      ∨ in_box demo_puzzle 0 0 1)
       ∧ (v = true ↔ ¬ (in_row demo_puzzle 0 1 ∨ in_col demo_puzzle 0 1
                        ∨ in_box demo_puzzle 0 0 1)).
Proof.
  apply (is_safe_spec (demo_state (heap_of demo_puzzle)) demo_board demo_puzzle).
  - by apply heap_of_holds.
  - lia.
  - lia.
Defined.

Lemma solve_board_keeps_uniqueness_witness :
  ∃ res st' new,
    solve_board demo_shuffle 82 demo_board (demo_state (heap_of demo_puzzle))
    = Ok (res, st')
    ∧ hist st' = new ++ []
    ∧ Forall (λ h, ∃ gh, view h demo_board = Some gh ∧ consistent gh) new
    ∧ ∃ g', holds st' demo_board g' ∧ consistent g'.
Proof.
  apply (solve_board_keeps_uniqueness demo_shuffle 82
           (demo_state (heap_of demo_puzzle)) demo_board demo_puzzle).
  - by apply heap_of_holds.
  - apply consistentb_true. by vm_compute.
  - lia.
Defined.

Lemma solve_board_full_grid_witness :
  consistentb demo_fives = false
  ∧ solve_board demo_shuffle 1 demo_board (demo_state (heap_of demo_fives))
    = Ok (true, demo_state (heap_of demo_fives)).
Proof.
  split; [by vm_compute|].
  apply (solve_board_full_grid demo_shuffle 0 _ _ demo_fives).
  - by apply heap_of_holds.
  - apply fullb_true. by vm_compute.
Defined.

Lemma remove_cells_keeps_full_witness :
  ∃ p st',
    remove_cells demo_shuffle 82 demo_board "easy"
      (demo_state (heap_of demo_solution)) = Ok (p, st')
    ∧ view (heap st') demo_board = Some demo_solution
    ∧ preserves (demo_state (heap_of demo_solution)) st'
    ∧ (∀ l, l ∈ p → l ∉ demo_board).
Proof.
  apply (remove_cells_keeps_full demo_shuffle 82 demo_board "easy"
           (demo_state (heap_of demo_solution)) demo_solution).
  - apply demo_shuffle_permutes.
  - lia.
  - reflexivity.
  - apply grid9b_true. reflexivity.
Defined.

Lemma unknown_difficulty_is_hard_witness :
  ∃ p st' gp,
    remove_cells demo_shuffle 82 demo_board "expert"
      (demo_state (heap_of demo_solution)) = Ok (p, st')
    ∧ remove_cells demo_shuffle 82 demo_board "hard"
        (demo_state (heap_of demo_solution)) = Ok (p, st')
    ∧ holds st' p gp ∧ cleared_from demo_solution gp
    ∧ (clues demo_solution ≤ clues gp + 55)%nat
    ∧ (solved demo_solution → clues gp = 26%nat)
    ∧ ∀ fuel b (st : state nat),
        remove_cells demo_shuffle fuel b "expert" st
        = remove_cells demo_shuffle fuel b "hard" st.
Proof.
  apply (unknown_difficulty_is_hard demo_shuffle 82 demo_board "expert"
           (demo_state (heap_of demo_solution)) demo_solution).
  - discriminate.
  - discriminate.
  - apply demo_shuffle_permutes.
  - lia.
  - reflexivity.
  - apply grid9b_true. reflexivity.
Defined.

(** ** The further properties on concrete inputs *)

Lemma demo_puzzle_digits : digits demo_puzzle.
Proof.
  intros r c Hr Hc.
  do 9 (destruct r as [|r]; [do 9 (destruct c as [|c]; [vm_compute; split; discriminate|]); lia|]).
  lia.
Qed.

Lemma find_empty_first_witness :
  ∃ o, find_empty demo_board (demo_state (heap_of demo_puzzle))
       = Ok (o, demo_state (heap_of demo_puzzle))
       ∧ match o with
         | Some (r, c) =>
             (r < 9)%nat ∧ (c < 9)%nat ∧ cell demo_puzzle r c = 0
             ∧ ∀ r' c', (r' < 9)%nat → (c' < 9)%nat →
                 (r' < r ∨ (r' = r ∧ c' < c))%nat → cell demo_puzzle r' c' ≠ 0
         | None => full demo_puzzle
         end.
Proof.
  apply (find_empty_first (demo_state (heap_of demo_puzzle)) demo_board demo_puzzle).
  by apply heap_of_holds.
Defined.

Lemma is_safe_out_of_range_witness :
  ((9 ≤ 9)%nat →
   is_safe demo_board 9 0 1 (demo_state (heap_of demo_puzzle)) = Err IndexError)
  ∧ ((0 < 9)%nat → (9 ≤ 9)%nat →
     is_safe demo_board 0 9 1 (demo_state (heap_of demo_puzzle))
     = if cell demo_puzzle 0 0 =? 1
       then Ok (false, demo_state (heap_of demo_puzzle)) else Err IndexError).
Proof.
  split.
  - apply (is_safe_out_of_range (demo_state (heap_of demo_puzzle)) demo_board
             demo_puzzle 9 0 1). by apply heap_of_holds.
  - apply (is_safe_out_of_range (demo_state (heap_of demo_puzzle)) demo_board
             demo_puzzle 0 9 1). by apply heap_of_holds.
Defined.

Lemma is_safe_rejects_own_digit_witness :
  is_safe demo_board 0 1 (cell demo_puzzle 0 1) (demo_state (heap_of demo_puzzle))
  = Ok (false, demo_state (heap_of demo_puzzle)).
Proof.
  apply (is_safe_rejects_own_digit (demo_state (heap_of demo_puzzle)) demo_board
           demo_puzzle 0 1).
  - by apply heap_of_holds.
  - lia.
  - lia.
Defined.

Lemma solve_board_decides_witness :
  ∃ res st' g',
    solve_board demo_shuffle 82 demo_board (demo_state (heap_of demo_puzzle))
    = Ok (res, st')
    ∧ holds st' demo_board g'
    ∧ (res = true ↔ ∃ s, solved s ∧ cleared_from s demo_puzzle)
    ∧ (res = true → solved g' ∧ cleared_from g' demo_puzzle).
Proof.
  apply (solve_board_decides demo_shuffle 82 (demo_state (heap_of demo_puzzle))
           demo_board demo_puzzle).
  - apply demo_shuffle_permutes.
  - by apply heap_of_holds.
  - apply consistentb_true. by vm_compute.
  - apply demo_puzzle_digits.
  - lia.
Defined.

Lemma solve_board_keeps_clues_witness :
  ∃ res st' new,
    solve_board demo_shuffle 82 demo_board (demo_state (heap_of demo_puzzle))
    = Ok (res, st')
    ∧ hist st' = new ++ []
    ∧ Forall (λ h, ∃ gh, view h demo_board = Some gh
                ∧ ∀ r c, (r < 9)%nat → (c < 9)%nat →
                    cell demo_puzzle r c ≠ 0 → cell gh r c = cell demo_puzzle r c)
             (heap st' :: new).
Proof.
  apply (solve_board_keeps_clues demo_shuffle 82 (demo_state (heap_of demo_puzzle))
           demo_board demo_puzzle).
  - by apply heap_of_holds.
  - lia.
Defined.

Lemma solve_board_in_place_witness :
  ∃ res st',
    solve_board demo_shuffle 82 demo_board (demo_state (heap_of demo_puzzle))
    = Ok (res, st')
    ∧ dom (heap st') = dom (heap_of demo_puzzle)
    ∧ ∀ l, l ∉ demo_board → heap st' !! l = heap_of demo_puzzle !! l.
Proof.
  apply (solve_board_in_place demo_shuffle 82 (demo_state (heap_of demo_puzzle))
           demo_board demo_puzzle).
  - by apply heap_of_holds.
  - lia.
Defined.

Lemma solve_board_depth_witness :
  ∃ res st',
    solve_board demo_shuffle (S (empties demo_puzzle)) demo_board
      (demo_state (heap_of demo_puzzle)) = Ok (res, st')
    ∧ solve_board demo_shuffle 1000 demo_board
        (demo_state (heap_of demo_puzzle)) = Ok (res, st').
Proof.
  apply (solve_board_depth demo_shuffle 1000 (demo_state (heap_of demo_puzzle))
           demo_board demo_puzzle).
  - by apply heap_of_holds.
  - pose proof (empties_le demo_puzzle). lia.
Defined.

Lemma solve_board_answer_fixed_witness :
  ∃ res st1' st2',
    solve_board demo_shuffle 82 demo_board (demo_state (heap_of demo_puzzle))
    = Ok (res, st1')
    ∧ solve_board demo_shuffle 90 demo_board (State (heap_of demo_puzzle) 5%nat [])
      = Ok (res, st2').
Proof.
  apply (solve_board_answer_fixed demo_shuffle demo_shuffle 82 90
           (demo_state (heap_of demo_puzzle)) (State (heap_of demo_puzzle) 5%nat [])
           demo_board demo_board demo_puzzle).
  - apply demo_shuffle_permutes.
  - apply demo_shuffle_permutes.
  - by apply heap_of_holds.
  - by apply (heap_of_holds demo_puzzle).
  - lia.
  - lia.
Defined.

Lemma generate_full_board_seeded_witness :
  ∃ b st' g',
    generate_full_board demo_shuffle 82 (demo_state ∅) = Ok (b, st')
    ∧ holds st' b g'
    ∧ (∀ l, l ∈ b → l ∉ dom (heap (demo_state ∅)))
    ∧ preserves (demo_state ∅) st'
    ∧ consistent g' ∧ digits g'
    ∧ each_digit_once (box_of g' 0) ∧ each_digit_once (box_of g' 4)
    ∧ each_digit_once (box_of g' 8)
    ∧ (full g' → solved g').
Proof.
  apply (generate_full_board_seeded demo_shuffle 82 (demo_state ∅)).
  - apply demo_shuffle_permutes.
  - lia.
Defined.

Lemma remove_cells_bounded_witness :
  ∃ p st' gp,
    remove_cells demo_shuffle 82 demo_board "medium"
      (demo_state (heap_of demo_contradictory)) = Ok (p, st')
    ∧ holds st' p gp
    ∧ (∀ l, l ∈ p → l ∉ dom (heap (demo_state (heap_of demo_contradictory))))
    ∧ cleared_from demo_contradictory gp
    ∧ (clues demo_contradictory ≤ clues gp + removals_of "medium")%nat
    ∧ (removals_of "medium" = 35 ∨ removals_of "medium" = 45
       ∨ removals_of "medium" = 55)%nat.
Proof.
  apply (remove_cells_bounded demo_shuffle 82 demo_board "medium"
           (demo_state (heap_of demo_contradictory)) demo_contradictory).
  - apply demo_shuffle_permutes.
  - lia.
  - reflexivity.
  - apply grid9b_true. reflexivity.
Defined.

Lemma remove_cells_on_solution_witness :
  ∃ p st' gp,
    remove_cells demo_shuffle 82 demo_board "hard"
      (demo_state (heap_of demo_solution)) = Ok (p, st')
    ∧ holds st' p gp
    ∧ cleared_from demo_solution gp
    ∧ (clues gp = 81 - removals_of "hard")%nat
    ∧ ∃ st'', (test <- copy_board p ;; solve_board demo_shuffle 82 test) st'
              = Ok (true, st'').
Proof.
  apply (remove_cells_on_solution demo_shuffle 82 demo_board "hard"
           (demo_state (heap_of demo_solution)) demo_solution).
  - apply demo_shuffle_permutes.
  - lia.
  - reflexivity.
  - apply grid9b_true. reflexivity.
  - apply solvedb_true. by vm_compute.
Defined.

Lemma generate_puzzle_pair_witness :
  ∃ p f st' gp gf,
    generate_puzzle demo_shuffle 82 "easy" (demo_state ∅) = Ok ((p, f), st')
    ∧ holds st' p gp ∧ holds st' f gf
    ∧ (∀ l, l ∈ p → l ∉ f)
    ∧ cleared_from gf gp
    ∧ (clues gf ≤ clues gp + removals_of "easy")%nat
    ∧ consistent gf.
Proof.
  apply (generate_puzzle_pair demo_shuffle 82 "easy" (demo_state ∅)).
  - apply demo_shuffle_permutes.
  - lia.
Defined.

Lemma new_game_checked_witness :
  ∃ r st',
    new_game demo_shuffle demo_lower 82 {| difficulty := "Hard" |} (demo_state ∅)
    = Ok (r, st')
    ∧ match r with
      | HTTPException code detail =>
          code = 400%nat ∧ detail = "Invalid difficulty"%string
          ∧ st' = demo_state ∅
          ∧ demo_lower "Hard" ∉ ["easy"; "medium"; "hard"]%string
      | Returns resp =>
          demo_lower "Hard" ∈ ["easy"; "medium"; "hard"]%string
          ∧ generate_puzzle demo_shuffle 82 (demo_lower "Hard") (demo_state ∅)
            = Ok ((puzzle resp, solution resp), st')
          ∧ ∃ gp gf,
              holds st' (puzzle resp) gp ∧ holds st' (solution resp) gf
              ∧ cleared_from gf gp
              ∧ (clues gf ≤ clues gp + removals_of (demo_lower "Hard"))%nat
      end.
Proof.
  apply (new_game_checked demo_shuffle demo_lower 82 {| difficulty := "Hard" |}
           (demo_state ∅)).
  - apply demo_shuffle_permutes.
  - lia.
Defined.

